(** * WordFlux: word counting over text files, verified against its sources

    A shallow embedding of [src/wordCounter.js], [src/worker.js] and
    [src/parallelProcessor.js], followed by the properties the specification
    states about them.

    Conventions of the embedding:
    - a JavaScript string is the list of its UTF-16 code units ([N]);
    - a JavaScript number that holds a count, a length or an index is an
      integer ([Z]); the embedding covers the integers a double holds exactly;
    - a [Map] is the list of its entries in insertion order, one per key;
    - a plain object is the list of its own enumerable properties in creation
      order, and [Object.entries] applies the language's key order;
    - the file system and the host are an explicit environment; what the code
      does to them (file-system calls, callbacks, workers started) is returned
      as a list of events next to the result;
    - console output and wall-clock durations are left out. *)

From Stdlib Require Import List ZArith NArith Lia Bool Permutation Sorted.
From Stdlib Require Ascii String.
Import ListNotations String.StringSyntax.
Delimit Scope string_scope with string.

Set Implicit Arguments.

(** ** The JavaScript built-ins the program uses *)

Module JS.

Definition codeunit := N.
Definition jsstring := list codeunit.

(** A string literal written in ASCII. *)
Definition lit (s : String.string) : jsstring :=
  map Ascii.N_of_ascii (String.list_ascii_of_string s).

Fixpoint str_eqb (a b : jsstring) : bool :=
  match a, b with
  | [], [] => true
  | x :: a', y :: b' => (x =? y)%N && str_eqb a' b'
  | _, _ => false
  end.

Definition between (lo hi c : N) : bool := ((lo <=? c) && (c <=? hi))%N.

(** [String.prototype.toLowerCase], one code unit at a time.  The conversion is
    tabulated for Basic Latin and Latin-1 Supplement, and for the code units
    above U+00FF whose lower-case form falls into those two blocks (U+0130,
    U+0178, U+1E9E, U+212A, U+212B).  Any other code unit is returned as it
    is: [normalizeLine] cannot tell the difference, because such a unit and the
    units of its lower-case form are all outside the class its regular
    expression keeps. *)
Definition lowerUnit (c : codeunit) : jsstring :=
  (if between 65 90 c then [c + 32]
   else if between 192 222 c && negb (c =? 215) then [c + 32]
   else if c =? 304 then [105; 775]
   else if c =? 376 then [255]
   else if c =? 7838 then [223]
   else if c =? 8490 then [107]
   else if c =? 8491 then [229]
   else [c])%N.

Definition toLowerCase (s : jsstring) : jsstring := flat_map lowerUnit s.

(** The escape [\w] of a regular expression without the [u] flag. *)
Definition wordChar (c : codeunit) : bool :=
  (between 97 122 c || between 65 90 c || between 48 57 c || (c =? 95))%N.

(** The escape [\s]: WhiteSpace and LineTerminator of the language. *)
Definition whiteSpace (c : codeunit) : bool :=
  (between 9 13 c || (c =? 32) || (c =? 160) || (c =? 5760)
   || between 8192 8202 c || (c =? 8232) || (c =? 8233) || (c =? 8239)
   || (c =? 8287) || (c =? 12288) || (c =? 65279))%N.

(** Case folding of a regular expression with the [i] flag and without the
    [u] flag: the upper-case form when it is a single code unit, except that
    a unit from U+0080 on is never folded below U+0080.  Given for the units
    whose image can meet the class of [normalizeLine]; U+00B5 and U+00FF fold
    to units above U+00FF which no member of that class folds to, and no
    unit above U+00FF folds onto the image of a member, so leaving all of
    these in place gives the same matches. *)
Definition canonicalize (c : codeunit) : codeunit :=
  (if between 97 122 c then c - 32
   else if between 224 254 c && negb (c =? 247) then c - 32
   else c)%N.

(** [String.prototype.split] with the separator [/\s+/]: [piece] holds the
    current piece, last unit first; [inRun] tells that the previous unit was
    white space.  A separator at either end leaves an empty piece there, and
    the empty string gives one empty piece. *)
Fixpoint splitWhiteSpace (s : jsstring) (piece : jsstring) (inRun : bool)
  : list jsstring :=
  match s with
  | [] => [rev piece]
  | c :: r =>
      if whiteSpace c then
        if inRun then splitWhiteSpace r [] true
        else rev piece :: splitWhiteSpace r [] true
      else splitWhiteSpace r (c :: piece) false
  end.

(** [Array.prototype.slice(start, end)] on integers: a negative index counts
    from the end. *)
Definition Array_slice {A} (start stop : Z) (l : list A) : list A :=
  let len := Z.of_nat (length l) in
  let k := if (start <? 0)%Z then Z.max (len + start) 0 else Z.min start len in
  let final := if (stop <? 0)%Z then Z.max (len + stop) 0 else Z.min stop len in
  firstn (Z.to_nat (Z.max (final - k) 0)) (skipn (Z.to_nat k) l).

(** [Array.prototype.sort(compare)], which is stable: an element goes before
    the first element of the sorted rest it does not compare above, so equal
    elements keep their order. *)
Section Sort.
Variable A : Type.
Variable compare : A -> A -> Z.

Fixpoint sort_insert (x : A) (l : list A) : list A :=
  match l with
  | [] => [x]
  | y :: r => if (compare x y <=? 0)%Z then x :: y :: r
              else y :: sort_insert x r
  end.

Fixpoint Array_sort (l : list A) : list A :=
  match l with
  | [] => []
  | x :: r => sort_insert x (Array_sort r)
  end.
End Sort.

(** *** [Map] with string keys *)

Section MapOps.
Variable V : Type.

Definition JSMap := list (jsstring * V).

Fixpoint Map_get (m : JSMap) (k : jsstring) : option V :=
  match m with
  | [] => None
  | (k', v) :: r => if str_eqb k' k then Some v else Map_get r k
  end.

(** [set] keeps the position of a key that is present and appends a new
    one. *)
Fixpoint Map_set (m : JSMap) (k : jsstring) (v : V) : JSMap :=
  match m with
  | [] => [(k, v)]
  | (k', v') :: r =>
      if str_eqb k' k then (k, v) :: r else (k', v') :: Map_set r k v
  end.

Definition Map_size (m : JSMap) : Z := Z.of_nat (length m).

(** [new Map(iterable)]: the entries are set one after the other. *)
Definition Map_from (entries : list (jsstring * V)) : JSMap :=
  fold_left (fun m e => Map_set m (fst e) (snd e)) entries [].
End MapOps.

(** *** Plain objects created by [{}] *)

Section ObjectOps.
Variable V : Type.

Definition JSObject := list (jsstring * V).

(** [obj[key] = value] for a value that is not an object.  The prototype of
    [{}] is [Object.prototype], whose only accessor property is
    [__proto__]; its setter ignores a value that is neither an object nor
    [null].  Every other key becomes (or updates) an own property. *)
Definition Object_assign (o : JSObject) (k : jsstring) (v : V) : JSObject :=
  if str_eqb k (lit "__proto__"%string) then o else Map_set o k v.

Definition digitsValue (s : jsstring) : option N :=
  fold_left
    (fun acc c =>
       match acc with
       | Some n => if between 48 57 c then Some (n * 10 + (c - 48))%N else None
       | None => None
       end)
    s (Some 0%N).

(** An array index: the canonical decimal form of an integer below
    [2^32 - 1]. *)
Definition arrayIndex (k : jsstring) : option N :=
  match k with
  | [] => None
  | c :: r =>
      if ((c =? 48)%N && negb (Nat.eqb (length r) 0)) then None
      else match digitsValue k with
           | Some n => if (n <=? 4294967294)%N then Some n else None
           | None => None
           end
  end.

Definition isIndexKey (e : jsstring * V) : bool :=
  match arrayIndex (fst e) with Some _ => true | None => false end.

Definition indexCompare (a b : jsstring * V) : Z :=
  match arrayIndex (fst a), arrayIndex (fst b) with
  | Some x, Some y => (Z.of_N x - Z.of_N y)%Z
  | _, _ => 0%Z
  end.

(** [Object.entries]: array-index keys in ascending order, then the other
    keys in creation order. *)
Definition Object_entries (o : JSObject) : list (jsstring * V) :=
  Array_sort indexCompare (filter isIndexKey o)
  ++ filter (fun e => negb (isIndexKey e)) o.
End ObjectOps.

(** [x || 0] for [x] a number or [undefined]. *)
Definition orZero (x : option Z) : Z :=
  match x with
  | Some v => if (v =? 0)%Z then 0%Z else v
  | None => 0%Z
  end.

(** An [Error] value: its message and its [code] property when it has one. *)
Record JSError := { message : jsstring; code : option jsstring }.

End JS.

Import JS.

(** ** The host: file system, processors, worker threads *)

Module Host.

(** What a path names.  A regular file is read as a sequence of lines (the
    [readline] interface splits on line ends); [failure] is the error the read
    stream raises after it has delivered these lines, if it raises one. *)
Inductive FsNode :=
| Missing
| Directory
| Regular (lines : list jsstring) (failure : option JSError).

Record Env := {
  fs : jsstring -> FsNode;
  (** [os.cpus().length] *)
  cpus : Z;
  (** an uncaught fault in the execution context of the worker started for a
      path, delivered as the ['error'] event of the worker *)
  workerFault : jsstring -> option jsstring
}.

End Host.

(** ** [src/wordCounter.js] *)

Module WordCounter.
Import Host.

(** The letters listed in the character class of [normalizeLine]. *)
Definition accented : list codeunit :=
  [225; 233; 237; 243; 250; 241; 252; 224; 232; 236; 242; 249;
   226; 234; 238; 244; 251; 228; 235; 239; 246; 252]%N.

(** Membership in the class between the brackets, negation and flags aside. *)
Definition inClass (c : codeunit) : bool :=
  wordChar c || whiteSpace c || existsb (N.eqb c) accented.

(** The code units that fold to the same unit as [c] under the [i] flag. *)
Definition sameFold (c : codeunit) : list codeunit :=
  let u := canonicalize c in
  if between 65 90 u || (between 192 222 u && negb (u =? 215)%N)
  then [u; (u + 32)%N] else [u].

(** One code unit against the negated class with the [i] flag: the class
    accepts [c] when one of its members folds to the same unit as [c]. *)
Definition punctuation (c : codeunit) : bool :=
  negb (existsb inClass (sameFold c)).

Definition normalizeLine (line : jsstring) : list jsstring :=
  filter (fun word => (0 <? Z.of_nat (length word))%Z)
    (splitWhiteSpace
       (map (fun c => if punctuation c then 32%N else c) (toLowerCase line))
       [] false).

Record Progress := {
  p_linesProcessed : Z;
  p_uniqueWords : Z;
  p_totalWords : Z
}.

(** What [countWords] does to its environment, in order. *)
Inductive Event :=
| ExistsSync (path : jsstring)
| StatSync (path : jsstring)
| CreateReadStream (path : jsstring)
| OnProgress (p : Progress).

Record Options := {
  (** whether a callback is given *)
  onProgress : bool;
  progressInterval : option Z
}.

Record CountResult := {
  wordMap : JSMap Z;
  totalWords : Z;
  uniqueWords : Z;
  linesProcessed : Z
}.

(** The local variables of [countWords] and the events so far. *)
Record Scan := {
  s_wordMap : JSMap Z;
  s_totalWords : Z;
  s_linesProcessed : Z;
  s_events : list Event
}.

(** The inner loop: one word. *)
Definition countWord (st : JSMap Z * Z) (word : jsstring) : JSMap Z * Z :=
  let (wm, total) := st in
  (Map_set wm word (orZero (Map_get wm word) + 1), total + 1)%Z.

(** [a % b === 0] on integers. *)
Definition remIsZero (a b : Z) : bool :=
  if (b =? 0)%Z then false else (Z.rem a b =? 0)%Z.

(** The body of the [for await] loop: one line. *)
Definition scanLine (opts : Options) (st : Scan) (line : jsstring) : Scan :=
  let n := (s_linesProcessed st + 1)%Z in
  let (wm, total) :=
    fold_left countWord (normalizeLine line) (s_wordMap st, s_totalWords st) in
  let interval := match progressInterval opts with Some k => k | None => 10000%Z end in
  let ev :=
    if onProgress opts && remIsZero n interval
    then [OnProgress {| p_linesProcessed := n;
                        p_uniqueWords := Map_size wm;
                        p_totalWords := total |}]
    else [] in
  {| s_wordMap := wm; s_totalWords := total; s_linesProcessed := n;
     s_events := s_events st ++ ev |}.

Definition ascii_ENOENT : jsstring := lit "ENOENT: El archivo no existe: "%string.
Definition ascii_EISDIR : jsstring :=
  lit "EISDIR: La ruta es un directorio, no un archivo: "%string.

(** [countWords]: the events, and either the error thrown or the result. *)
Definition countWords (env : Env) (filePath : jsstring) (opts : Options)
  : list Event * (JSError + CountResult) :=
  match fs env filePath with
  | Missing =>
      ([ExistsSync filePath],
       inl {| message := ascii_ENOENT ++ filePath; code := None |})
  | Directory =>
      ([ExistsSync filePath; StatSync filePath],
       inl {| message := ascii_EISDIR ++ filePath; code := None |})
  | Regular lines failure =>
      let st :=
        fold_left (scanLine opts) lines
          {| s_wordMap := []; s_totalWords := 0; s_linesProcessed := 0;
             s_events := [ExistsSync filePath; StatSync filePath;
                          CreateReadStream filePath] |} in
      match failure with
      | Some e => (s_events st, inl e)
      | None =>
          (s_events st,
           inr {| wordMap := s_wordMap st;
                  totalWords := s_totalWords st;
                  uniqueWords := Map_size (s_wordMap st);
                  linesProcessed := s_linesProcessed st |})
      end
  end.

Record TopWord := { word : jsstring; count : Z }.

(** [getTopWords]; [n] is [None] when the argument is left out. *)
Definition getTopWords (wordMap : JSMap Z) (n : option Z) : list TopWord :=
  let n := match n with Some k => k | None => 10%Z end in
  map (fun e => {| word := fst e; count := snd e |})
    (Array_slice 0 n
       (Array_sort (fun a b => (snd b - snd a)%Z) wordMap)).

Definition mapToObject (wordMap : JSMap Z) : JSObject Z :=
  fold_left (fun obj e => Object_assign obj (fst e) (snd e)) wordMap [].

Definition objectToMap (obj : JSObject Z) : JSMap Z :=
  Map_from (Object_entries obj).

Definition mergeMaps (maps : list (JSMap Z)) : JSMap Z :=
  fold_left
    (fun merged map =>
       fold_left
         (fun merged e =>
            Map_set merged (fst e) (orZero (Map_get merged (fst e)) + snd e)%Z)
         map merged)
    maps [].

End WordCounter.

(** ** [src/worker.js] *)

Module Worker.
Import Host WordCounter.

(** The [data] of a successful terminal message. *)
Record WorkerData := {
  d_wordMap : JSObject Z;
  d_totalWords : Z;
  d_uniqueWords : Z;
  d_linesProcessed : Z
}.

(** The [error] of a failed terminal message. *)
Record ErrorInfo := { e_message : jsstring; e_code : jsstring }.

(** A message of type ['complete']: [success] is false with [error], or true
    with [data]. *)
Record Complete := {
  c_workerId : Z;
  c_filePath : jsstring;
  c_outcome : ErrorInfo + WorkerData
}.

(** A message posted to the parent: [type] is ['progress'] or ['complete']. *)
Inductive Message :=
| ProgressMessage (workerId : Z) (filePath : jsstring)
| CompleteMessage (c : Complete).

(** [error.code || 'UNKNOWN'] *)
Definition codeOrUnknown (c : option jsstring) : jsstring :=
  match c with
  | Some (x :: r) => x :: r
  | _ => lit "UNKNOWN"%string
  end.

(** [processFile]: the messages posted, in order. *)
Definition processFile (env : Env) (filePath : jsstring) (workerId : Z)
  : list Message :=
  let (events, outcome) :=
    countWords env filePath
      {| onProgress := true; progressInterval := Some 50000%Z |} in
  ProgressMessage workerId filePath
  :: flat_map
       (fun ev => match ev with
                  | OnProgress _ => [ProgressMessage workerId filePath]
                  | _ => []
                  end)
       events
  ++ [match outcome with
      | inr results =>
          CompleteMessage
            {| c_workerId := workerId; c_filePath := filePath;
               c_outcome :=
                 inr {| d_wordMap := mapToObject (wordMap results);
                        d_totalWords := totalWords results;
                        d_uniqueWords := uniqueWords results;
                        d_linesProcessed := linesProcessed results |} |}
      | inl error =>
          CompleteMessage
            {| c_workerId := workerId; c_filePath := filePath;
               c_outcome :=
                 inl {| e_message := message error;
                        e_code := codeOrUnknown (code error) |} |}
      end].

End Worker.

(** ** [src/parallelProcessor.js] *)

Module ParallelProcessor.
Import Host WordCounter Worker.
Local Open Scope Z_scope.

(** The ['message'] handler of [createWorker] over the messages of a worker:
    progress messages are logged, the first complete message resolves the
    promise. *)
Fixpoint firstComplete (messages : list Message) : option Complete :=
  match messages with
  | [] => None
  | ProgressMessage _ _ :: rest => firstComplete rest
  | CompleteMessage c :: _ => Some c
  end.

(** [createWorker]: the value its promise resolves with, [None] when the
    promise is never settled.  A fault of the worker resolves it with a failed
    complete message; otherwise the first complete message posted does. *)
Definition createWorker (env : Env) (filePath : jsstring) (workerId : Z)
  : option Complete :=
  match workerFault env filePath with
  | Some msg =>
      Some {| c_workerId := workerId; c_filePath := filePath;
              c_outcome :=
                inl {| e_message := msg;
                       e_code := lit "WORKER_ERROR"%string |} |}
  | None => firstComplete (processFile env filePath workerId)
  end.

Record Successful := {
  ok_filePath : jsstring;
  ok_uniqueWords : Z;
  ok_totalWords : Z;
  ok_linesProcessed : Z
}.

Record Failed := { ko_filePath : jsstring; ko_error : ErrorInfo }.

Record Results := {
  successful : list Successful;
  failed : list Failed;
  combinedWordMap : JSMap Z;
  totalWords : Z;
  totalUniqueWords : Z;
  totalLinesProcessed : Z
}.

Definition emptyResults : Results :=
  {| successful := []; failed := []; combinedWordMap := [];
     totalWords := 0; totalUniqueWords := 0; totalLinesProcessed := 0 |}.

(** The state of a run: the [results] object, and the workers created so
    far, one list per batch, each with its file and worker id. *)
Record Run := {
  results : Results;
  launched : list (list (jsstring * Z))
}.

(** The body of [for (const result of batchResults)]. *)
Definition recordResult (r : Results) (result : Complete) : Results :=
  match c_outcome result with
  | inr data =>
      {| successful :=
           successful r ++
           [{| ok_filePath := c_filePath result;
               ok_uniqueWords := d_uniqueWords data;
               ok_totalWords := d_totalWords data;
               ok_linesProcessed := d_linesProcessed data |}];
         failed := failed r;
         combinedWordMap :=
           mergeMaps [combinedWordMap r; objectToMap (d_wordMap data)];
         totalWords := totalWords r + d_totalWords data;
         totalUniqueWords := totalUniqueWords r;
         totalLinesProcessed := totalLinesProcessed r + d_linesProcessed data |}
  | inl error =>
      {| successful := successful r;
         failed :=
           failed r ++ [{| ko_filePath := c_filePath result; ko_error := error |}];
         combinedWordMap := combinedWordMap r;
         totalWords := totalWords r;
         totalUniqueWords := totalUniqueWords r;
         totalLinesProcessed := totalLinesProcessed r |}
  end.

(** [batch.map((file, index) => ...)] with the ids of the batch at [i]. *)
Fixpoint workerIds (i : Z) (index : Z) (batch : list jsstring)
  : list (jsstring * Z) :=
  match batch with
  | [] => []
  | file :: rest => (file, i + index + 1) :: workerIds i (index + 1) rest
  end.

(** [Promise.all]: settled when every promise is. *)
Fixpoint Promise_all {A} (ps : list (option A)) : option (list A) :=
  match ps with
  | [] => Some []
  | p :: rest =>
      match p, Promise_all rest with
      | Some x, Some xs => Some (x :: xs)
      | _, _ => None
      end
  end.

(** One round of the batch loop. *)
Definition runBatch (env : Env) (i : Z) (batch : list jsstring) (st : Run)
  : option Run :=
  let ids := workerIds i 0 batch in
  match Promise_all (map (fun w => createWorker env (fst w) (snd w)) ids) with
  | Some batchResults =>
      Some {| results := fold_left recordResult batchResults (results st);
              launched := launched st ++ [ids] |}
  | None => None
  end.

(** [for (let i = 0; i < files.length; i += effectiveWorkers)].  [fuel] bounds
    the number of rounds; [None] means the loop did not finish. *)
Fixpoint batchLoop (env : Env) (files : list jsstring) (effectiveWorkers : Z)
    (fuel : nat) (i : Z) (st : Run) : option Run :=
  if i <? Z.of_nat (length files) then
    match fuel with
    | O => None
    | S fuel' =>
        match runBatch env i (Array_slice i (i + effectiveWorkers) files) st with
        | Some st' => batchLoop env files effectiveWorkers fuel' (i + effectiveWorkers) st'
        | None => None
        end
    end
  else Some st.

(** [Math.max(1, Math.min(maxWorkers, files.length, numCPUs))] *)
Definition effectiveWorkers (maxWorkers fileCount numCPUs : Z) : Z :=
  Z.max 1 (Z.min (Z.min maxWorkers fileCount) numCPUs).

(** [processFilesInParallel]; [files] is [None] for a missing list and
    [maxWorkers] is [None] when the option is [null] or left out. *)
Definition processFilesInParallel (env : Env) (files : option (list jsstring))
    (maxWorkers : option Z) : option Run :=
  let maxWorkers := match maxWorkers with Some m => m | None => cpus env end in
  match files with
  | None | Some [] => Some {| results := emptyResults; launched := [] |}
  | Some files =>
      let numCPUs := cpus env in
      let E := effectiveWorkers maxWorkers (Z.of_nat (length files)) numCPUs in
      match batchLoop env files E (length files) 0
              {| results := emptyResults; launched := [] |} with
      | Some st =>
          let r := results st in
          Some {| results :=
                    {| successful := successful r;
                       failed := failed r;
                       combinedWordMap := combinedWordMap r;
                       totalWords := totalWords r;
                       totalUniqueWords := Map_size (combinedWordMap r);
                       totalLinesProcessed := totalLinesProcessed r |};
                  launched := launched st |}
      | None => None
      end
  end.

End ParallelProcessor.

(** ** The vocabulary of the specification *)

Module Spec.
Import Host WordCounter Worker ParallelProcessor.
Local Open Scope Z_scope.

(** A [Map] holds one entry per key. *)
Definition wf (m : JSMap Z) : Prop := NoDup (map fst m).

(** The count of a token, absence counted as 0. *)
Definition countOf (m : JSMap Z) (w : jsstring) : Z :=
  match Map_get m w with Some c => c | None => 0 end.

(** Two maps hold the same token-to-count pairs. *)
Definition sameMapping (m1 m2 : JSMap Z) : Prop :=
  forall w, Map_get m1 w = Map_get m2 w.

(** The sum of all counts of a map. *)
Definition sumCounts (m : JSMap Z) : Z := fold_right Z.add 0 (map snd m).

Definition sumZ (l : list Z) : Z := fold_right Z.add 0 l.

(** The invariant of both loops of [countWords]: the running total is the
    sum of the counts. *)
Definition counted (wm : JSMap Z) (total : Z) : Prop :=
  wf wm /\ total = sumCounts wm.

(** *** The Normalizer as the specification words it *)

(** Split on runs of separators and discard empty results: the maximal
    pieces without a separator.  [cur] is the piece being read, last unit
    first. *)
Fixpoint fields (sep : codeunit -> bool) (s : jsstring) (cur : jsstring)
  : list jsstring :=
  match s with
  | [] => match cur with [] => [] | _ => [rev cur] end
  | c :: r =>
      if sep c then
        match cur with
        | [] => fields sep r []
        | _ => rev cur :: fields sep r []
        end
      else fields sep r (c :: cur)
  end.

(** Lowercase, blank out what the class [keep] does not hold, split. *)
Definition normalizeWith (keep : codeunit -> bool) (line : jsstring)
  : list jsstring :=
  fields whiteSpace
    (map (fun c => if keep c then c else 32%N) (toLowerCase line)) [].

Definition digitOrUnderscore (c : codeunit) : bool :=
  between 48 57 c || (c =? 95)%N.

(** "A letter (including accented letters)", on the code units up to U+00FF:
    the letters of Basic Latin and of Latin-1 Supplement. *)
Definition letter (c : codeunit) : bool :=
  between 65 90 c || between 97 122 c
  || (c =? 170)%N || (c =? 181)%N || (c =? 186)%N
  || between 192 214 c || between 216 246 c || between 248 255 c.

(** The Normalizer of section 4.1, as stated. *)
Definition statedNormalizer (line : jsstring) : list jsstring :=
  normalizeWith (fun c => letter c || digitOrUnderscore c || whiteSpace c) line.

(** The letters the source keeps: unaccented Latin letters and the vowels
    with acute, grave, circumflex or diaeresis, and n with tilde, in either
    case. *)
Definition listedLetter (c : codeunit) : bool :=
  between 65 90 c || between 97 122 c
  || existsb (N.eqb c) accented
  || existsb (fun a => (c + 32 =? a)%N) accented.

Definition listedNormalizer (line : jsstring) : list jsstring :=
  normalizeWith
    (fun c => listedLetter c || digitOrUnderscore c || whiteSpace c) line.

(** The upper-case letters of Basic Latin and Latin-1 Supplement. *)
Definition isUpper (c : codeunit) : bool :=
  between 65 90 c || (between 192 222 c && negb (c =? 215)%N).

(** The code units up to U+00FF. *)
Definition latin1 : list codeunit := map N.of_nat (seq 0 256).

(** A code unit a Token may hold: lower-case. *)
Definition tokenUnit (c : codeunit) : bool :=
  between 97 122 c || digitOrUnderscore c || existsb (N.eqb c) accented.

(** *** Errors *)

Inductive ErrorKind := NotFound | IsDirectory | OtherError.

Fixpoint startsWith (p s : jsstring) : bool :=
  match p, s with
  | [], _ => true
  | x :: p', y :: s' => (x =? y)%N && startsWith p' s'
  | _ :: _, [] => false
  end.

(** The kind of an error is carried by the head of its message. *)
Definition kindOf (msg : jsstring) : ErrorKind :=
  if startsWith (lit "ENOENT"%string) msg then NotFound
  else if startsWith (lit "EISDIR"%string) msg then IsDirectory
  else OtherError.

(** *** What one file contributes to a run *)

(** The terminal outcome of the worker of a file. *)
Definition outcomeOf (env : Env) (filePath : jsstring) : ErrorInfo + WorkerData :=
  match workerFault env filePath with
  | Some msg => inl {| e_message := msg; e_code := lit "WORKER_ERROR"%string |}
  | None =>
      match snd (countWords env filePath
                   {| onProgress := true; progressInterval := Some 50000 |}) with
      | inr r => inr {| d_wordMap := mapToObject (wordMap r);
                        d_totalWords := WordCounter.totalWords r;
                        d_uniqueWords := uniqueWords r;
                        d_linesProcessed := linesProcessed r |}
      | inl e => inl {| e_message := message e;
                        e_code := codeOrUnknown (code e) |}
      end
  end.

Definition successOf (env : Env) (f : jsstring) : list Successful :=
  match outcomeOf env f with
  | inr d => [{| ok_filePath := f; ok_uniqueWords := d_uniqueWords d;
                 ok_totalWords := d_totalWords d;
                 ok_linesProcessed := d_linesProcessed d |}]
  | inl _ => []
  end.

Definition failureOf (env : Env) (f : jsstring) : list Failed :=
  match outcomeOf env f with
  | inl e => [{| ko_filePath := f; ko_error := e |}]
  | inr _ => []
  end.

(** The maps of the files that succeed, as the aggregator receives them. *)
Definition mapOf (env : Env) (f : jsstring) : list (JSMap Z) :=
  match outcomeOf env f with
  | inr d => [objectToMap (d_wordMap d)]
  | inl _ => []
  end.

(** How often the scan of a file that succeeds counts the token
    [__proto__]. *)
Definition protoCount (env : Env) (f : jsstring) : Z :=
  match workerFault env f with
  | Some _ => 0
  | None =>
      match snd (countWords env f
                   {| onProgress := true; progressInterval := Some 50000 |}) with
      | inr r => countOf (wordMap r) (lit "__proto__"%string)
      | inl _ => 0
      end
  end.

(** The complete message of the worker [workerId] of a file. *)
Definition completeOf (env : Env) (workerId : Z) (f : jsstring) : Complete :=
  {| c_workerId := workerId; c_filePath := f; c_outcome := outcomeOf env f |}.

(** Recording the complete message of a file; the worker id plays no part. *)
Definition recordFile (env : Env) (r : Results) (f : jsstring) : Results :=
  recordResult r (completeOf env 0 f).

(** *** Batches *)

(** [Batches E l bs]: [bs] cuts [l], in order, into consecutive batches of
    size [E], the last one possibly smaller but not empty. *)
Inductive Batches {A : Type} (E : Z) : list A -> list (list A) -> Prop :=
| Batches_none : Batches E [] []
| Batches_last (b : list A) :
    b <> [] -> Z.of_nat (length b) <= E -> Batches E b [b]
| Batches_full (b rest : list A) (bs : list (list A)) :
    Z.of_nat (length b) = E -> rest <> [] -> Batches E rest bs ->
    Batches E (b ++ rest) (b :: bs).

(** *** Reading [mergeMaps] *)

(** The body of the inner loop of [mergeMaps], and the inner loop. *)
Definition addEntry (merged : JSMap Z) (e : jsstring * Z) : JSMap Z :=
  Map_set merged (fst e) (orZero (Map_get merged (fst e)) + snd e).

Definition mergeInto (merged map : JSMap Z) : JSMap Z :=
  fold_left addEntry map merged.

(** Whether a list of entries names a key, and the sum of the counts it gives
    for it. *)
Definition mentions (es : list (jsstring * Z)) (w : jsstring) : bool :=
  existsb (fun e => str_eqb (fst e) w) es.

Fixpoint tally (es : list (jsstring * Z)) (w : jsstring) : Z :=
  match es with
  | [] => 0
  | e :: r => (if str_eqb (fst e) w then snd e else 0) + tally r w
  end.

(** The sum of the counts the maps give for a token. *)
Definition total (maps : list (JSMap Z)) (w : jsstring) : Z :=
  sumZ (map (fun m => countOf m w) maps).

Definition anyMentions (maps : list (JSMap Z)) (w : jsstring) : bool :=
  existsb (fun m => mentions m w) maps.

End Spec.

(** ** Concrete inputs used below *)

Module Examples.
Import Host WordCounter Worker ParallelProcessor.
Local Open Scope Z_scope.

Definition proto : jsstring := lit "__proto__"%string.

(** The entries whose key is not [__proto__]. *)
Definition notProto (e : jsstring * Z) : bool := negb (str_eqb (fst e) proto).

(** A host where every path names a one-line file whose text is the word
    [__proto__]. *)
Definition protoEnv : Env :=
  {| fs := fun _ => Regular [proto] None;
     cpus := 4;
     workerFault := fun _ => None |}.

(** A host with the files ["a.txt"] and ["c.txt"] and nothing else. *)
Definition twoFilesEnv : Env :=
  {| fs := fun p =>
             if str_eqb p (lit "a.txt"%string)
             then Regular [lit "Hello, hello WORLD!"%string] None
             else if str_eqb p (lit "c.txt"%string)
             then Regular [lit "one two"%string; lit "two"%string] None
             else Missing;
     cpus := 8;
     workerFault := fun _ => None |}.

(** Ten paths, ["f0"] to ["f9"]. *)
Definition tenFiles : list jsstring :=
  map (fun d => lit "f"%string ++ [d]) [48; 49; 50; 51; 52; 53; 54; 55; 56; 57]%N.

(** A host with 8 processors where every path is an empty file. *)
Definition eightUnitsEnv : Env :=
  {| fs := fun _ => Regular [] None;
     cpus := 8;
     workerFault := fun _ => None |}.

(** The Czech word "nov" followed by y with acute accent (U+00FD). *)
Definition novy : jsstring := [110; 111; 118; 253]%N.

End Examples.

(** ** More built-ins, used by the command line *)

Module JSText.
Local Open Scope Z_scope.

(** [String.prototype.startsWith] and [endsWith]. *)
Fixpoint String_startsWith (s prefix : jsstring) : bool :=
  match prefix, s with
  | [], _ => true
  | x :: prefix', y :: s' => (x =? y)%N && String_startsWith s' prefix'
  | _ :: _, [] => false
  end.

Definition String_endsWith (s suffix : jsstring) : bool :=
  String_startsWith (rev s) (rev suffix).

(** [String.prototype.split] with a separator of one code unit; [piece] is
    the current piece, last unit first. *)
Fixpoint String_split (sep : codeunit) (s piece : jsstring) : list jsstring :=
  match s with
  | [] => [rev piece]
  | c :: r =>
      if (c =? sep)%N then rev piece :: String_split sep r []
      else String_split sep r (c :: piece)
  end.

(** The result of [parseInt]: [NaN]; an integer of magnitude up to [2^53],
    which a double holds exactly (the sign of zero is not kept); or, for a
    digit run that writes a larger integer [z], the double the engine rounds
    [z] to, which need not be [z] and is an infinity when [z] is out of
    range. *)
Inductive JSNumber := NaN | Num (z : Z) | Rounded (z : Z).

Fixpoint dropWhile {A} (p : A -> bool) (l : list A) : list A :=
  match l with
  | [] => []
  | x :: r => if p x then dropWhile p r else l
  end.

Fixpoint takeWhile {A} (p : A -> bool) (l : list A) : list A :=
  match l with
  | [] => []
  | x :: r => if p x then x :: takeWhile p r else []
  end.

Definition isDigit (c : codeunit) : bool := between 48 57 c.

(** The value of a string of decimal digits. *)
Definition decimalValue (ds : jsstring) : Z :=
  fold_left (fun acc c => acc * 10 + (Z.of_N c - 48)) ds 0.

(** [parseInt(x, 10)], where [x] is a string or [undefined] ([None]): leading
    white space is skipped, one sign is read, then the longest run of decimal
    digits; without a digit the result is [NaN].  The integer read is
    returned as it is up to [2^53 = 9007199254740992] and rounded beyond. *)
Definition parseInt10 (x : option jsstring) : JSNumber :=
  match x with
  | None => NaN
  | Some s =>
      let s := dropWhile whiteSpace s in
      let (negative, s) :=
        match s with
        | c :: r => if (c =? 45)%N then (true, r)
                    else if (c =? 43)%N then (false, r)
                    else (false, s)
        | [] => (false, s)
        end in
      match takeWhile isDigit s with
      | [] => NaN
      | ds =>
          let z := if negative then - decimalValue ds else decimalValue ds in
          if decimalValue ds <=? 9007199254740992 then Num z else Rounded z
      end
  end.

(** [[...new Set(iterable)]]: the first occurrence of each element, in
    order. *)
Definition Set_from (l : list jsstring) : list jsstring :=
  fold_left (fun seen x => if existsb (str_eqb x) seen then seen else seen ++ [x])
    l [].

End JSText.

(** ** [src/index.js] *)

Module Cli.
Import Host WordCounter ParallelProcessor JSText.
Local Open Scope Z_scope.

(** The object [parseArgs] returns; [a_workers] is [None] for [null]. *)
Record Args := {
  a_files : list jsstring;
  a_parallel : bool;
  a_workers : option JSNumber;
  a_help : bool;
  a_quiet : bool
}.

(** The body of the loop of [parseArgs]. *)
Definition parseArg (result : Args) (arg : jsstring) : Args :=
  if str_eqb arg (lit "--help"%string) || str_eqb arg (lit "-h"%string) then
    {| a_files := a_files result; a_parallel := a_parallel result;
       a_workers := a_workers result; a_help := true;
       a_quiet := a_quiet result |}
  else if str_eqb arg (lit "--parallel"%string) || str_eqb arg (lit "-p"%string) then
    {| a_files := a_files result; a_parallel := true;
       a_workers := a_workers result; a_help := a_help result;
       a_quiet := a_quiet result |}
  else if str_eqb arg (lit "--quiet"%string) || str_eqb arg (lit "-q"%string) then
    {| a_files := a_files result; a_parallel := a_parallel result;
       a_workers := a_workers result; a_help := a_help result;
       a_quiet := true |}
  else if String_startsWith arg (lit "--workers="%string) then
    {| a_files := a_files result; a_parallel := a_parallel result;
       a_workers := Some (parseInt10 (nth_error (String_split 61%N arg []) 1));
       a_help := a_help result; a_quiet := a_quiet result |}
  else if negb (String_startsWith arg (lit "-"%string)) then
    {| a_files := a_files result ++ [arg]; a_parallel := a_parallel result;
       a_workers := a_workers result; a_help := a_help result;
       a_quiet := a_quiet result |}
  else result.

Definition parseArgs (args : list jsstring) : Args :=
  fold_left parseArg args
    {| a_files := []; a_parallel := false; a_workers := None;
       a_help := false; a_quiet := false |}.

(** What the environment of the scans does not hold: for a path that exists
    and is not a directory, whether [stats.isFile()] holds (a regular file
    rather than a device, a socket or a FIFO); the directory listings; and
    [path.resolve]. *)
Record Paths := {
  isFile : jsstring -> bool;
  readdirSync : jsstring -> list jsstring;
  resolve : list jsstring -> jsstring
}.

(** The body of the loop of [expandFiles]. *)
Definition expandPattern (env : Env) (paths : Paths) (files : list jsstring)
    (pattern : jsstring) : list jsstring :=
  match fs env pattern with
  | Missing => files
  | Regular _ _ =>
      if isFile paths pattern then files ++ [resolve paths [pattern]]
      else files
  | Directory =>
      files ++
      map (fun f => resolve paths [pattern; f])
        (filter (fun f => String_endsWith f (lit ".txt"%string))
           (readdirSync paths pattern))
  end.

Definition expandFiles (env : Env) (paths : Paths) (patterns : list jsstring)
  : list jsstring :=
  Set_from (fold_left (expandPattern env paths) patterns []).

(** [processSingleFile]: the events of the scan and what is returned,
    [success: false] with the error or [success: true] with the results. *)
Definition processSingleFile (env : Env) (filePath : jsstring) (quiet : bool)
  : list Event * (JSError + CountResult) :=
  countWords env filePath
    {| onProgress := negb quiet; progressInterval := Some 10000 |}.

(** The local [results] of [processFilesSequentially], which its summary
    prints. *)
Record Summary := {
  sm_successful : Z;
  sm_failed : Z;
  sm_errors : list (jsstring * jsstring)
}.

(** The body of the loop of [processFilesSequentially]. *)
Definition sequentialStep (env : Env) (quiet : bool) (results : Summary)
    (file : jsstring) : Summary :=
  match snd (processSingleFile env file quiet) with
  | inr _ =>
      {| sm_successful := sm_successful results + 1;
         sm_failed := sm_failed results;
         sm_errors := sm_errors results |}
  | inl error =>
      {| sm_successful := sm_successful results;
         sm_failed := sm_failed results + 1;
         sm_errors := sm_errors results ++ [(file, message error)] |}
  end.

Definition processFilesSequentially (env : Env) (files : list jsstring)
    (quiet : bool) : Summary :=
  fold_left (sequentialStep env quiet) files
    {| sm_successful := 0; sm_failed := 0; sm_errors := [] |}.

(** What [main] does after reading its arguments: leave with an exit code, or
    hand the files to one of the three ways of processing. *)
Inductive Action :=
| Exit (exitCode : Z)
| RunParallel (files : list jsstring) (maxWorkers : option JSNumber)
    (verbose : bool)
| RunSingle (file : jsstring) (quiet : bool)
| RunSequential (files : list jsstring) (quiet : bool).

(** [main], for [process.argv] as given. *)
Definition main (env : Env) (paths : Paths) (argv : list jsstring) : Action :=
  let args := parseArgs (skipn 2 argv) in
  if a_help args || (Z.of_nat (length (a_files args)) =? 0) then
    Exit (if a_help args then 0 else 1)
  else
    let files := expandFiles env paths (a_files args) in
    if Z.of_nat (length files) =? 0 then Exit 1
    else if a_parallel args && (1 <? Z.of_nat (length files)) then
      RunParallel files (a_workers args) (negb (a_quiet args))
    else
      match files with
      | [file] => RunSingle file (a_quiet args)
      | _ => RunSequential files (a_quiet args)
      end.

End Cli.

(** ** [processFilesInParallel] when [maxWorkers] may be [NaN] *)

Module ParallelProcessorNaN.
Import Host WordCounter Worker ParallelProcessor.
Local Open Scope Z_scope.

(** A number that is an integer, or [NaN] ([None]). *)
Definition Number := option Z.

(** [Math.min] of three numbers and [Math.max] of two: [NaN] as soon as an
    argument is [NaN]. *)
Definition Math_min (a b c : Number) : Number :=
  match a, b, c with
  | Some x, Some y, Some z => Some (Z.min (Z.min x y) z)
  | _, _, _ => None
  end.

Definition Math_max (a b : Number) : Number :=
  match a, b with
  | Some x, Some y => Some (Z.max x y)
  | _, _ => None
  end.

(** [a + b]: [NaN] as soon as an operand is [NaN]. *)
Definition Number_add (a b : Number) : Number :=
  match a, b with
  | Some x, Some y => Some (x + y)
  | _, _ => None
  end.

(** The conversion the arguments of [slice] go through: [NaN] becomes 0. *)
Definition toInteger (a : Number) : Z :=
  match a with Some x => x | None => 0 end.

(** The batch loop with a step that may be [NaN].  The test
    [i < files.length] is false when [i] is [NaN]. *)
Fixpoint batchLoopNaN (env : Env) (files : list jsstring)
    (effectiveWorkers : Number) (fuel : nat) (i : Number) (st : Run)
  : option Run :=
  match i with
  | None => Some st
  | Some index =>
      if index <? Z.of_nat (length files) then
        match fuel with
        | O => None
        | S fuel' =>
            match runBatch env index
                    (Array_slice index
                       (toInteger (Number_add i effectiveWorkers)) files) st with
            | Some st' =>
                batchLoopNaN env files effectiveWorkers fuel'
                  (Number_add i effectiveWorkers) st'
            | None => None
            end
        end
      else Some st
  end.

(** [processFilesInParallel]; [maxWorkers] is [None] when the option is
    [null] or left out, [Some None] when it is [NaN]. *)
Definition processFilesInParallelNaN (env : Env)
    (files : option (list jsstring)) (maxWorkers : option Number)
  : option Run :=
  let maxWorkers :=
    match maxWorkers with Some m => m | None => Some (cpus env) end in
  match files with
  | None | Some [] => Some {| results := emptyResults; launched := [] |}
  | Some files =>
      let numCPUs := Some (cpus env) in
      let E :=
        Math_max (Some 1)
          (Math_min maxWorkers (Some (Z.of_nat (length files))) numCPUs) in
      match batchLoopNaN env files E (length files) (Some 0)
              {| results := emptyResults; launched := [] |} with
      | Some st =>
          let r := results st in
          Some {| results :=
                    {| successful := successful r;
                       failed := failed r;
                       combinedWordMap := combinedWordMap r;
                       totalWords := totalWords r;
                       totalUniqueWords := Map_size (combinedWordMap r);
                       totalLinesProcessed := totalLinesProcessed r |};
                  launched := launched st |}
      | None => None
      end
  end.

End ParallelProcessorNaN.

(** ** Vocabulary for further properties of the code *)

Module Further.
Import Host WordCounter Worker ParallelProcessor JSText Cli.
Local Open Scope Z_scope.

(** The tokens of a file, line after line. *)
Definition tokensOf (lines : list jsstring) : list jsstring :=
  flat_map normalizeLine lines.

(** How often a token occurs in a sequence of tokens. *)
Fixpoint occurrences (w : jsstring) (tokens : list jsstring) : Z :=
  match tokens with
  | [] => 0
  | t :: rest => (if str_eqb t w then 1 else 0) + occurrences w rest
  end.

(** The line counts reported to the progress callback, in order. *)
Definition progressLines (events : list Event) : list Z :=
  flat_map
    (fun e => match e with OnProgress p => [p_linesProcessed p] | _ => [] end)
    events.

(** The numbers [1 .. n]. *)
Definition lineNumbers (n : nat) : list Z := map Z.of_nat (seq 1 n).

(** The interval in force: [progressInterval = 10000] by default. *)
Definition intervalOf (opts : Options) : Z :=
  match progressInterval opts with Some k => k | None => 10000 end.

(** What [processFilesSequentially] keeps of a file that fails: its path and
    the message of its error. *)
Definition sequentialError (env : Env) (f : jsstring)
  : list (jsstring * jsstring) :=
  match snd (processSingleFile env f true) with
  | inl e => [(f, message e)]
  | inr _ => []
  end.

(** The same host with another number of processors. *)
Definition withCpus (env : Env) (n : Z) : Env :=
  {| fs := fs env; cpus := n; workerFault := workerFault env |}.

(** The kinds of command-line arguments. *)
Definition isHelpArg (a : jsstring) : bool :=
  str_eqb a (lit "--help"%string) || str_eqb a (lit "-h"%string).

Definition isParallelArg (a : jsstring) : bool :=
  str_eqb a (lit "--parallel"%string) || str_eqb a (lit "-p"%string).

Definition isQuietArg (a : jsstring) : bool :=
  str_eqb a (lit "--quiet"%string) || str_eqb a (lit "-q"%string).

Definition isWorkersArg (a : jsstring) : bool :=
  String_startsWith a (lit "--workers="%string).

Definition startsWithDash (a : jsstring) : bool :=
  String_startsWith a (lit "-"%string).

(** The number a [--workers=] argument gives. *)
Definition workersValue (a : jsstring) : JSNumber :=
  parseInt10 (nth_error (String_split 61%N a []) 1).

(** What a pattern contributes to [expandFiles]. *)
Definition expansionOf (env : Env) (paths : Paths) (pattern : jsstring)
  : list jsstring :=
  match fs env pattern with
  | Missing => []
  | Regular _ _ => if isFile paths pattern then [resolve paths [pattern]] else []
  | Directory =>
      map (fun f => resolve paths [pattern; f])
        (filter (fun f => String_endsWith f (lit ".txt"%string))
           (readdirSync paths pattern))
  end.

End Further.

Import Host WordCounter Worker ParallelProcessor Spec Examples.
Import JSText Cli Further ParallelProcessorNaN.
Local Open Scope Z_scope.

(** ** Strings and maps *)

Lemma str_eqb_eq (a b : jsstring) : str_eqb a b = true <-> a = b.
Proof.
  revert b; induction a as [|x a IH]; intros [|y b]; simpl; split;
    try congruence; intro H.
  - apply andb_true_iff in H as [Hx Hr].
    apply N.eqb_eq in Hx. apply IH in Hr. congruence.
  - injection H as -> ->. rewrite N.eqb_refl. simpl. now apply IH.
Qed.

Lemma str_eqb_refl (a : jsstring) : str_eqb a a = true.
Proof. now apply str_eqb_eq. Qed.

Lemma str_eqb_neq (a b : jsstring) : str_eqb a b = false <-> a <> b.
Proof.
  rewrite <- str_eqb_eq. destruct (str_eqb a b); split; congruence.
Qed.

Lemma str_eqb_sym (a b : jsstring) : str_eqb a b = str_eqb b a.
Proof.
  destruct (str_eqb a b) eqn:E.
  - apply str_eqb_eq in E as ->. now rewrite str_eqb_refl.
  - symmetry. apply str_eqb_neq. apply str_eqb_neq in E. congruence.
Qed.

Lemma orZero_default (o : option Z) :
  orZero o = match o with Some v => v | None => 0 end.
Proof.
  destruct o as [v|]; simpl; [|reflexivity].
  destruct (Z.eqb_spec v 0); congruence.
Qed.

Lemma orZero_countOf (m : JSMap Z) (w : jsstring) :
  orZero (Map_get m w) = countOf m w.
Proof. apply orZero_default. Qed.

Section MapFacts.
Variable V : Type.
Implicit Types (m : JSMap V) (k : jsstring) (v : V).

Lemma Map_get_set m k v k' :
  Map_get (Map_set m k v) k' = if str_eqb k k' then Some v else Map_get m k'.
Proof.
  induction m as [|[k0 v0] m IH]; simpl.
  - reflexivity.
  - destruct (str_eqb k0 k) eqn:E0; simpl.
    + apply str_eqb_eq in E0 as ->. now destruct (str_eqb k k').
    + rewrite IH. destruct (str_eqb k0 k') eqn:E1; [|reflexivity].
      apply str_eqb_eq in E1 as ->. now rewrite str_eqb_sym, E0.
Qed.

Lemma Map_get_None m k : Map_get m k = None <-> ~ In k (map fst m).
Proof.
  induction m as [|[k0 v0] m IH]; simpl.
  - tauto.
  - destruct (str_eqb k0 k) eqn:E.
    + apply str_eqb_eq in E. split; [discriminate | tauto].
    + apply str_eqb_neq in E. rewrite IH. tauto.
Qed.

Lemma Map_set_fresh m k v :
  ~ In k (map fst m) -> Map_set m k v = m ++ [(k, v)].
Proof.
  induction m as [|[k0 v0] m IH]; simpl; intro H.
  - reflexivity.
  - destruct (str_eqb k0 k) eqn:E.
    + apply str_eqb_eq in E. tauto.
    + f_equal. apply IH. tauto.
Qed.

Lemma Map_set_keys m k v :
  map fst (Map_set m k v) = map fst m \/
  (~ In k (map fst m) /\ map fst (Map_set m k v) = map fst m ++ [k]).
Proof.
  induction m as [|[k0 v0] m IH]; simpl.
  - right. tauto.
  - destruct (str_eqb k0 k) eqn:E; simpl.
    + apply str_eqb_eq in E as ->. now left.
    + apply str_eqb_neq in E.
      destruct IH as [-> | [Hn ->]]; [now left | right].
      split; [tauto | reflexivity].
Qed.

Lemma Map_get_In m k v :
  NoDup (map fst m) -> (Map_get m k = Some v <-> In (k, v) m).
Proof.
  induction m as [|[k0 v0] m IH]; simpl; intro Hnd.
  - split; [discriminate | tauto].
  - inversion Hnd as [|? ? Hnotin Hnd']; subst.
    destruct (str_eqb k0 k) eqn:E.
    + apply str_eqb_eq in E as ->. split.
      * intros [= ->]. now left.
      * intros [[= ->] | Hin]; [reflexivity|].
        exfalso. apply Hnotin. change k with (fst (k, v)). now apply in_map.
    + apply str_eqb_neq in E. rewrite (IH Hnd'). split; [tauto|].
      intros [[= -> ->] | Hin]; [congruence | exact Hin].
Qed.
End MapFacts.

Lemma Map_set_wf (m : JSMap Z) k v : wf m -> wf (Map_set m k v).
Proof.
  unfold wf. intro H.
  destruct (Map_set_keys m k v) as [-> | [Hn ->]]; [exact H|].
  apply NoDup_app; [exact H | repeat constructor; simpl; tauto |].
  intros x Hx [<- | []]. tauto.
Qed.

(** ** [mergeMaps] *)

Lemma mergeMaps_fold (maps : list (JSMap Z)) :
  mergeMaps maps = fold_left mergeInto maps [].
Proof. reflexivity. Qed.

Lemma countOf_addEntry merged e w :
  countOf (addEntry merged e) w =
  countOf merged w + (if str_eqb (fst e) w then snd e else 0).
Proof.
  unfold countOf, addEntry. rewrite Map_get_set, orZero_default.
  destruct (str_eqb (fst e) w) eqn:E.
  - apply str_eqb_eq in E as ->. destruct (Map_get merged (fst e)); lia.
  - destruct (Map_get merged w); lia.
Qed.

Lemma Map_get_mentions (m : JSMap Z) w :
  mentions m w = match Map_get m w with Some _ => true | None => false end.
Proof.
  induction m as [|[k v] m IH]; simpl; [reflexivity|].
  destruct (str_eqb k w); simpl; auto.
Qed.

Lemma tally_not_mentioned es w : mentions es w = false -> tally es w = 0.
Proof.
  induction es as [|e es IH]; simpl; intro H; [reflexivity|].
  apply orb_false_iff in H as [-> Hr]. rewrite (IH Hr). reflexivity.
Qed.

Lemma Map_get_mergeInto es : forall merged w,
  Map_get (mergeInto merged es) w =
  if mentions es w then Some (countOf merged w + tally es w)
  else Map_get merged w.
Proof.
  induction es as [|e es IH]; intros merged w; simpl.
  - reflexivity.
  - unfold mergeInto in *. simpl. rewrite IH, countOf_addEntry.
    destruct e as [k v]; simpl.
    destruct (str_eqb k w) eqn:E; simpl.
    + pose proof (proj1 (str_eqb_eq k w) E) as Hk. subst k.
      destruct (mentions es w) eqn:Em.
      * f_equal. lia.
      * unfold addEntry; simpl. rewrite Map_get_set, E, orZero_countOf.
        rewrite (tally_not_mentioned _ _ Em). f_equal. lia.
    + destruct (mentions es w).
      * f_equal. lia.
      * unfold addEntry; simpl. now rewrite Map_get_set, E.
Qed.

Lemma mergeInto_wf es : forall merged, wf merged -> wf (mergeInto merged es).
Proof.
  induction es as [|e es IH]; intros merged H; simpl; [exact H|].
  apply IH. now apply Map_set_wf.
Qed.

(** In a well-formed map the tally of a key is its count. *)
Lemma tally_countOf (m : JSMap Z) w : wf m -> tally m w = countOf m w.
Proof.
  unfold wf, countOf. induction m as [|[k v] m IH]; simpl; intro H.
  - reflexivity.
  - inversion H as [|? ? Hn Hnd]; subst.
    destruct (str_eqb k w) eqn:E.
    + apply str_eqb_eq in E as ->.
      assert (T : tally m w = 0).
      { rewrite (IH Hnd). apply Map_get_None in Hn. now rewrite Hn. }
      lia.
    + rewrite (IH Hnd). lia.
Qed.

Lemma countOf_not_mentioned (m : JSMap Z) w :
  mentions m w = false -> countOf m w = 0.
Proof.
  unfold countOf. rewrite Map_get_mentions. now destruct (Map_get m w).
Qed.

Lemma total_not_mentioned maps w : anyMentions maps w = false -> total maps w = 0.
Proof.
  unfold total, anyMentions. induction maps as [|m maps IH]; simpl; intro H.
  - reflexivity.
  - apply orb_false_iff in H as [Hm Hr].
    rewrite (countOf_not_mentioned _ _ Hm), (IH Hr). reflexivity.
Qed.

Lemma total_cons m maps w : total (m :: maps) w = countOf m w + total maps w.
Proof. reflexivity. Qed.

Lemma Map_get_fold_mergeInto maps : forall acc w,
  Forall wf maps ->
  Map_get (fold_left mergeInto maps acc) w =
  if anyMentions maps w then Some (countOf acc w + total maps w)
  else Map_get acc w.
Proof.
  induction maps as [|m maps IH]; intros acc w H; simpl.
  - reflexivity.
  - inversion H as [|? ? Hm Hrest]; subst.
    rewrite (IH _ _ Hrest), total_cons. unfold countOf at 1.
    rewrite Map_get_mergeInto, (tally_countOf w Hm).
    destruct (mentions m w) eqn:Em; simpl.
    + destruct (anyMentions maps w) eqn:Ea; f_equal; [lia|].
      rewrite (total_not_mentioned _ _ Ea). lia.
    + rewrite (countOf_not_mentioned _ _ Em).
      destruct (anyMentions maps w); [|reflexivity].
      apply f_equal. unfold countOf. lia.
Qed.

Lemma Map_get_mergeMaps maps w :
  Forall wf maps ->
  Map_get (mergeMaps maps) w =
  if anyMentions maps w then Some (total maps w) else None.
Proof.
  intro H. rewrite mergeMaps_fold, (Map_get_fold_mergeInto [] w H).
  now destruct (anyMentions maps w).
Qed.

Lemma mergeMaps_wf maps : wf (mergeMaps maps).
Proof.
  rewrite mergeMaps_fold.
  assert (G : forall acc, wf acc -> wf (fold_left mergeInto maps acc)).
  { induction maps as [|m maps IH]; intros acc H; simpl; [exact H|].
    apply IH. now apply mergeInto_wf. }
  apply G. constructor.
Qed.

Lemma total_perm maps maps' w :
  Permutation maps maps' -> total maps w = total maps' w.
Proof.
  unfold total, sumZ. induction 1; simpl; lia.
Qed.

Lemma anyMentions_perm maps maps' w :
  Permutation maps maps' -> anyMentions maps w = anyMentions maps' w.
Proof.
  unfold anyMentions. induction 1; simpl.
  - reflexivity.
  - now rewrite IHPermutation.
  - destruct (mentions x w), (mentions y w); reflexivity.
  - congruence.
Qed.

Lemma countOf_mergeMaps maps w :
  Forall wf maps -> countOf (mergeMaps maps) w = total maps w.
Proof.
  intro H. unfold countOf. rewrite (Map_get_mergeMaps w H).
  destruct (anyMentions maps w) eqn:E; [reflexivity|].
  now rewrite (total_not_mentioned _ _ E).
Qed.

Lemma mentions_mergeMaps maps w :
  Forall wf maps -> mentions (mergeMaps maps) w = anyMentions maps w.
Proof.
  intro H. rewrite Map_get_mentions, (Map_get_mergeMaps w H).
  now destruct (anyMentions maps w).
Qed.

(** Appending entries with fresh, distinct keys. *)
Lemma mergeInto_fresh es : forall acc,
  NoDup (map fst (acc ++ es)) -> mergeInto acc es = acc ++ es.
Proof.
  induction es as [|[k v] es IH]; intros acc H; simpl.
  - now rewrite app_nil_r.
  - unfold mergeInto in *. simpl.
    assert (Hk : ~ In k (map fst acc)).
    { rewrite map_app in H. simpl in H.
      apply NoDup_remove_2 in H. intro Hin. apply H.
      apply in_or_app. now left. }
    unfold addEntry at 2. simpl.
    rewrite (proj2 (Map_get_None acc k) Hk). simpl.
    rewrite Map_set_fresh by exact Hk.
    rewrite IH; rewrite <- app_assoc; simpl; [reflexivity | exact H].
Qed.

(** C1: merging is associative and commutative on the token-to-count
    pairs.  For well-formed maps, [merge(merge(A,B),C)] and
    [merge(A,merge(B,C))] hold the same pairs, so do [merge(A,B)] and
    [merge(B,A)], and so do the merges of a collection taken in any two
    orders; the merged count of a token is the sum of the counts the
    contributing maps give for it, absence counted as 0, and a token is absent
    from the merge exactly when it is absent from every map. *)
Theorem mergeMaps_assoc_comm :
  forall (A B C : JSMap Z) (maps maps' : list (JSMap Z)),
    wf A -> wf B -> wf C -> Forall wf maps -> Permutation maps maps' ->
    sameMapping (mergeMaps [mergeMaps [A; B]; C]) (mergeMaps [A; mergeMaps [B; C]])
    /\ sameMapping (mergeMaps [A; B]) (mergeMaps [B; A])
    /\ sameMapping (mergeMaps maps) (mergeMaps maps')
    /\ (forall w, countOf (mergeMaps maps) w = total maps w)
    /\ (forall w, Map_get (mergeMaps maps) w = None <->
                  forall m, In m maps -> Map_get m w = None)
    /\ wf (mergeMaps maps).
Proof.
  intros A B C maps maps' HA HB HC Hmaps Hperm.
  assert (Hmaps' : Forall wf maps').
  { rewrite Forall_forall in *. intros m Hm. apply Hmaps.
    now apply (Permutation_in _ (Permutation_sym Hperm)). }
  repeat split.
  - intro w.
    rewrite !Map_get_mergeMaps
      by (repeat constructor; auto using mergeMaps_wf).
    unfold anyMentions, total; simpl.
    rewrite !countOf_mergeMaps, !mentions_mergeMaps by (repeat constructor; auto).
    unfold anyMentions, total; simpl.
    rewrite !orb_false_r, orb_assoc.
    destruct (mentions A w || mentions B w || mentions C w); [|reflexivity].
    f_equal. lia.
  - intro w.
    rewrite !Map_get_mergeMaps by (repeat constructor; auto).
    unfold anyMentions, total; simpl.
    rewrite !orb_false_r, (orb_comm (mentions A w)).
    destruct (mentions B w || mentions A w); [|reflexivity].
    f_equal. lia.
  - intro w. rewrite !Map_get_mergeMaps by assumption.
    now rewrite (anyMentions_perm w Hperm), (total_perm w Hperm).
  - intro w. now apply countOf_mergeMaps.
  - rewrite Map_get_mergeMaps by assumption.
    destruct (anyMentions maps w) eqn:E; [discriminate|].
    intros _ m Hm. unfold anyMentions in E.
    rewrite <- not_true_iff_false, existsb_exists in E.
    destruct (Map_get m w) eqn:G; [|reflexivity].
    exfalso. apply E. exists m. split; [exact Hm|].
    now rewrite Map_get_mentions, G.
  - intro Hall. rewrite Map_get_mergeMaps by assumption.
    destruct (anyMentions maps w) eqn:E; [|reflexivity].
    unfold anyMentions in E. apply existsb_exists in E as [m [Hm Hw]].
    rewrite Map_get_mentions, (Hall m Hm) in Hw. discriminate.
  - apply mergeMaps_wf.
Qed.

(** A map with a single entry is well formed. *)
Lemma wf_one k v : wf [(k, v)].
Proof. unfold wf; simpl. constructor; [intros [] | constructor]. Defined.

(** Three one-entry maps sharing the token "a": every grouping and order
    gives the count 1 + 2 + 4. *)
Lemma mergeMaps_assoc_comm_witness :
  let A := [(lit "a"%string, 1)] in
  let B := [(lit "a"%string, 2)] in
  let C := [(lit "a"%string, 4)] in
  sameMapping (mergeMaps [mergeMaps [A; B]; C]) (mergeMaps [A; mergeMaps [B; C]])
  /\ countOf (mergeMaps [A; B; C]) (lit "a"%string) = 7.
Proof.
  intros A B C.
  pose proof (@mergeMaps_assoc_comm A B C [A; B; C] [C; A; B]
                (wf_one _ _) (wf_one _ _) (wf_one _ _)
                (Forall_cons _ (wf_one _ _)
                   (Forall_cons _ (wf_one _ _)
                      (Forall_cons _ (wf_one _ _) (Forall_nil _))))
                (Permutation_sym (Permutation_cons_append [A; B] C))) as H.
  split; [exact (proj1 H) | reflexivity].
Defined.

(** C9: the empty map is an identity for merge.  Merging a well-formed map
    with the empty map, on either side, returns the same entries in the same
    order. *)
Theorem mergeMaps_empty_identity :
  forall m : JSMap Z, wf m -> mergeMaps [m; []] = m /\ mergeMaps [[]; m] = m.
Proof.
  intros m H. rewrite !mergeMaps_fold. simpl.
  change (mergeInto (mergeInto [] m) []) with (mergeInto [] m).
  change (mergeInto (mergeInto [] []) m) with (mergeInto [] m).
  rewrite mergeInto_fresh by exact H. split; reflexivity.
Qed.

(** The map of "hello" counted twice, merged with the empty map. *)
Lemma mergeMaps_empty_identity_witness :
  mergeMaps [[(lit "hello"%string, 2)]; []] = [(lit "hello"%string, 2)]
  /\ mergeMaps [[]; [(lit "hello"%string, 2)]] = [(lit "hello"%string, 2)].
Proof.
  exact (@mergeMaps_empty_identity [(lit "hello"%string, 2)] (wf_one _ _)).
Defined.

(** ** Sorting *)

Section SortFacts.
Variable A : Type.
Variable compare : A -> A -> Z.

Lemma sort_insert_perm x l : Permutation (sort_insert compare x l) (x :: l).
Proof.
  induction l as [|y r IH]; simpl.
  - apply Permutation_refl.
  - destruct (compare x y <=? 0).
    + apply Permutation_refl.
    + eapply Permutation_trans; [apply perm_skip, IH | apply perm_swap].
Qed.

Lemma Array_sort_perm l : Permutation (Array_sort compare l) l.
Proof.
  induction l as [|x r IH]; simpl.
  - apply perm_nil.
  - eapply Permutation_trans; [apply sort_insert_perm | now apply perm_skip].
Qed.

Lemma Array_sort_length l : length (Array_sort compare l) = length l.
Proof. apply Permutation_length, Array_sort_perm. Qed.

(** A consistent comparator: the order it induces is total and
    transitive. *)
Hypothesis compare_total : forall a b, compare a b <= 0 \/ compare b a <= 0.
Hypothesis compare_trans :
  forall a b c, compare a b <= 0 -> compare b c <= 0 -> compare a c <= 0.

Lemma sort_insert_sorted x l :
  StronglySorted (fun a b => compare a b <= 0) l ->
  StronglySorted (fun a b => compare a b <= 0) (sort_insert compare x l).
Proof.
  induction 1 as [|y r Hr IH Hy]; simpl.
  - repeat constructor.
  - destruct (Z.leb_spec (compare x y) 0) as [Hxy | Hxy].
    + constructor; [now constructor|].
      constructor; [exact Hxy|].
      eapply Forall_impl; [|exact Hy].
      intros z Hz. simpl in *. eauto.
    + constructor; [exact IH|].
      apply (Permutation_Forall (Permutation_sym (sort_insert_perm x r))).
      constructor; [|exact Hy].
      destruct (compare_total x y); lia.
Qed.

Lemma Array_sort_sorted l :
  StronglySorted (fun a b => compare a b <= 0) (Array_sort compare l).
Proof.
  induction l as [|x r IH]; simpl; [constructor | now apply sort_insert_sorted].
Qed.
End SortFacts.

Lemma filter_split_perm {A} (p : A -> bool) (l : list A) :
  Permutation (filter p l ++ filter (fun x => negb (p x)) l) l.
Proof.
  induction l as [|x l IH]; simpl; [constructor|].
  destruct (p x); simpl.
  - now constructor.
  - apply Permutation_sym.
    eapply Permutation_trans; [|apply Permutation_middle].
    constructor. now apply Permutation_sym.
Qed.

(** ** The passage of a map through a plain object *)

Lemma Object_entries_perm (o : JSObject Z) : Permutation (Object_entries o) o.
Proof.
  unfold Object_entries.
  eapply Permutation_trans; [|apply (filter_split_perm (@isIndexKey Z))].
  apply Permutation_app_tail, Array_sort_perm.
Qed.

Lemma Map_from_fresh (es : list (jsstring * Z)) : forall acc,
  NoDup (map fst (acc ++ es)) ->
  fold_left (fun m e => Map_set m (fst e) (snd e)) es acc = acc ++ es.
Proof.
  induction es as [|[k v] es IH]; intros acc H; simpl.
  - now rewrite app_nil_r.
  - assert (Hk : ~ In k (map fst acc)).
    { rewrite map_app in H. simpl in H.
      apply NoDup_remove_2 in H. intro Hin. apply H.
      apply in_or_app. now left. }
    rewrite Map_set_fresh by exact Hk.
    rewrite IH; rewrite <- app_assoc; simpl; [reflexivity | exact H].
Qed.

Lemma mapToObject_filter (m : JSMap Z) : forall acc,
  fold_left (fun obj e => Object_assign obj (fst e) (snd e)) m acc =
  fold_left (fun obj e => Map_set obj (fst e) (snd e)) (filter notProto m) acc.
Proof.
  induction m as [|[k v] m IH]; intro acc; simpl; [reflexivity|].
  unfold notProto at 1, Object_assign at 2. simpl. fold proto.
  destruct (str_eqb k proto); simpl; apply IH.
Qed.

Lemma filter_wf (p : jsstring * Z -> bool) (m : JSMap Z) : wf m -> wf (filter p m).
Proof.
  unfold wf. induction m as [|[k v] m IH]; simpl; intro H; [constructor|].
  inversion H as [|? ? Hn Hnd]; subst.
  destruct (p (k, v)); simpl; [constructor|]; auto.
  intro Hin. apply Hn. apply in_map_iff in Hin as [[k' v'] [Hk Hin]].
  simpl in Hk; subst k'. apply filter_In in Hin as [Hin _].
  change k with (fst (k, v')). now apply in_map.
Qed.

Lemma perm_sameMapping (m m' : JSMap Z) :
  wf m -> Permutation m' m -> sameMapping m' m.
Proof.
  intros Hm Hp w.
  assert (Hm' : wf m').
  { unfold wf in *. eapply Permutation_NoDup; [|exact Hm].
    apply Permutation_map, Permutation_sym, Hp. }
  destruct (Map_get m' w) as [v|] eqn:G.
  - symmetry. apply (Map_get_In _ _ _ Hm).
    apply (Permutation_in _ Hp). now apply (Map_get_In _ _ _ Hm').
  - destruct (Map_get m w) as [v|] eqn:G'; [|reflexivity].
    apply (Map_get_In _ _ _ Hm) in G'.
    apply (Permutation_in _ (Permutation_sym Hp)) in G'.
    apply (Map_get_In _ _ _ Hm') in G'. congruence.
Qed.

(** X6: What survives the round trip: every entry but the one of the key
    [__proto__]. *)
Lemma roundtrip_keeps_other_tokens (m : JSMap Z) :
  wf m -> sameMapping (objectToMap (mapToObject m)) (filter notProto m).
Proof.
  intro H. pose proof (filter_wf notProto H) as Hf.
  unfold mapToObject. rewrite mapToObject_filter.
  rewrite (Map_from_fresh (filter notProto m) []) by exact Hf. simpl.
  unfold objectToMap, Map_from.
  assert (Hp := Object_entries_perm (filter notProto m)).
  rewrite (Map_from_fresh (Object_entries (filter notProto m)) []).
  - simpl. now apply perm_sameMapping.
  - simpl. eapply Permutation_NoDup; [|exact Hf].
    apply Permutation_map, Permutation_sym, Hp.
Qed.

(** C10: the passage through a plain object loses the token [__proto__]:
    the normalizer yields this token, a well-formed map counts it once, and
    the map rebuilt from the object is empty. *)
Theorem roundtrip_loses_proto :
  normalizeLine proto = [proto]
  /\ wf [(proto, 1)]
  /\ Map_get [(proto, 1)] proto = Some 1
  /\ mapToObject [(proto, 1)] = []
  /\ objectToMap (mapToObject [(proto, 1)]) = []
  /\ Map_get (objectToMap (mapToObject [(proto, 1)])) proto = None.
Proof.
  repeat split; try reflexivity. apply wf_one.
Qed.

(** ** [countWords] *)

Lemma sumCounts_Map_set (m : JSMap Z) k v :
  sumCounts (Map_set m k v) = sumCounts m - countOf m k + v.
Proof.
  unfold sumCounts, countOf. induction m as [|[k0 v0] m IH]; simpl.
  - lia.
  - destruct (str_eqb k0 k); simpl; lia.
Qed.

Lemma countWord_counted wm total w :
  counted wm total ->
  counted (fst (countWord (wm, total) w)) (snd (countWord (wm, total) w)).
Proof.
  intros [Hwf Hsum]. simpl. split.
  - now apply Map_set_wf.
  - rewrite sumCounts_Map_set, orZero_countOf. lia.
Qed.

Lemma countWords_line_counted ws : forall wm total,
  counted wm total ->
  counted (fst (fold_left countWord ws (wm, total)))
          (snd (fold_left countWord ws (wm, total))).
Proof.
  induction ws as [|w ws IH]; intros wm total H; simpl; [exact H|].
  apply (countWord_counted w) in H. simpl in H. now apply IH.
Qed.

Lemma scanLine_counted opts st line :
  counted (s_wordMap st) (s_totalWords st) ->
  counted (s_wordMap (scanLine opts st line))
          (s_totalWords (scanLine opts st line)).
Proof.
  intro H. unfold scanLine.
  pose proof (countWords_line_counted (normalizeLine line) H) as H'.
  destruct (fold_left countWord (normalizeLine line)
              (s_wordMap st, s_totalWords st)) as [wm total].
  exact H'.
Qed.

Lemma scan_counted opts lines : forall st,
  counted (s_wordMap st) (s_totalWords st) ->
  counted (s_wordMap (fold_left (scanLine opts) lines st))
          (s_totalWords (fold_left (scanLine opts) lines st)).
Proof.
  induction lines as [|l lines IH]; intros st H; simpl; [exact H|].
  apply IH. now apply scanLine_counted.
Qed.

(** One file: the result of a scan gives as
    [totalWords] the sum of the counts of its map, and as [uniqueWords] the
    size of the map, which holds one entry per token. *)
Lemma countWords_totalWords env filePath opts r :
  snd (countWords env filePath opts) = inr r ->
  WordCounter.totalWords r = sumCounts (wordMap r)
  /\ uniqueWords r = Map_size (wordMap r)
  /\ wf (wordMap r).
Proof.
  unfold countWords. destruct (fs env filePath) as [| |lines failure]; simpl;
    try discriminate.
  set (st0 := {| s_wordMap := []; s_totalWords := 0; s_linesProcessed := 0;
                 s_events := _ |}).
  assert (H0 : counted (s_wordMap st0) (s_totalWords st0))
    by (split; [constructor | reflexivity]).
  pose proof (scan_counted opts lines st0 H0) as [Hwf Hsum].
  destruct failure; simpl; [discriminate|].
  intros [= <-]. simpl. auto.
Qed.

(** C5, at a file that holds the word [__proto__]: the scan of the file counts
    one word and its map sums to one, but the run reports [totalWords = 1]
    next to a combined map whose counts sum to 0. *)
Theorem aggregate_totalWords_loses_proto :
  (exists r,
      snd (countWords protoEnv (lit "notes.txt"%string)
             {| onProgress := true; progressInterval := Some 50000 |}) = inr r
      /\ WordCounter.totalWords r = 1 /\ sumCounts (wordMap r) = 1)
  /\ exists run,
      processFilesInParallel protoEnv (Some [lit "notes.txt"%string]) None
      = Some run
      /\ length (successful (results run)) = 1%nat
      /\ totalWords (results run) = 1
      /\ combinedWordMap (results run) = []
      /\ sumCounts (combinedWordMap (results run)) = 0.
Proof.
  split.
  - eexists. repeat split; reflexivity.
  - eexists. split; [vm_compute; reflexivity|]. repeat split; reflexivity.
Qed.

Lemma scanLine_events opts st line :
  exists ev,
    s_events (scanLine opts st line) = s_events st ++ ev
    /\ Forall (fun e => forall p, e <> CreateReadStream p) ev.
Proof.
  unfold scanLine.
  destruct (fold_left countWord (normalizeLine line)
              (s_wordMap st, s_totalWords st)) as [wm total]; simpl.
  eexists; split; [reflexivity|].
  destruct (onProgress opts && remIsZero _ _); repeat constructor.
  intros p; discriminate.
Qed.

Lemma scanLine_lines opts st line :
  s_linesProcessed (scanLine opts st line) = s_linesProcessed st + 1.
Proof.
  unfold scanLine.
  now destruct (fold_left countWord (normalizeLine line)
                  (s_wordMap st, s_totalWords st)).
Qed.

Lemma scan_events opts lines : forall st,
  exists ev,
    s_events (fold_left (scanLine opts) lines st) = s_events st ++ ev
    /\ Forall (fun e => forall p, e <> CreateReadStream p) ev.
Proof.
  induction lines as [|l lines IH]; intro st; simpl.
  - exists []. now rewrite app_nil_r.
  - destruct (IH (scanLine opts st l)) as [ev2 [E2 F2]].
    destruct (scanLine_events opts st l) as [ev1 [E1 F1]].
    exists (ev1 ++ ev2). rewrite E2, E1, app_assoc. split; [reflexivity|].
    apply Forall_app; auto.
Qed.

Lemma scan_lines opts lines : forall st,
  s_linesProcessed (fold_left (scanLine opts) lines st)
  = s_linesProcessed st + Z.of_nat (length lines).
Proof.
  induction lines as [|l lines IH]; intro st; simpl length; simpl fold_left.
  - simpl. lia.
  - rewrite IH, scanLine_lines. lia.
Qed.

(** C6: [countWords] checks the path before it opens anything.  On a path
    that does not exist it only calls [existsSync] and throws an error of
    kind NotFound; on a directory it calls [existsSync] and [statSync] and
    throws an error of kind IsDirectory; on any other path it creates the read
    stream after these two calls and scans every line the stream delivers. *)
Theorem countWords_checks_before_opening :
  forall (env : Env) (filePath : jsstring) (opts : Options),
    match fs env filePath with
    | Missing =>
        exists e,
          countWords env filePath opts = ([ExistsSync filePath], inl e)
          /\ kindOf (message e) = NotFound
    | Directory =>
        exists e,
          countWords env filePath opts
          = ([ExistsSync filePath; StatSync filePath], inl e)
          /\ kindOf (message e) = IsDirectory
    | Regular lines failure =>
        exists progress,
          fst (countWords env filePath opts)
          = [ExistsSync filePath; StatSync filePath; CreateReadStream filePath]
            ++ progress
          /\ match failure with
             | Some e => snd (countWords env filePath opts) = inl e
             | None =>
                 exists r,
                   snd (countWords env filePath opts) = inr r
                   /\ linesProcessed r = Z.of_nat (length lines)
             end
    end.
Proof.
  intros env filePath opts. unfold countWords.
  destruct (fs env filePath) as [| |lines failure].
  - eexists. split; reflexivity.
  - eexists. split; reflexivity.
  - set (st0 := {| s_wordMap := []; s_totalWords := 0; s_linesProcessed := 0;
                   s_events := _ |}).
    destruct (scan_events opts lines st0) as [ev [Eev _]].
    exists ev. destruct failure as [e|]; simpl; (split; [exact Eev|]).
    + reflexivity.
    + eexists. split; [reflexivity|]. simpl. now rewrite scan_lines.
Qed.

(** C8: an empty or absent file list is not an error.  The run returns
    empty successful and failed lists, an empty combined map and all totals
    zero, and creates no worker. *)
Theorem empty_list_gives_empty_result :
  forall (env : Env) (maxWorkers : option Z),
    let empty :=
      {| results :=
           {| successful := []; failed := []; combinedWordMap := [];
              totalWords := 0; totalUniqueWords := 0;
              totalLinesProcessed := 0 |};
         launched := [] |} in
    processFilesInParallel env (Some []) maxWorkers = Some empty
    /\ processFilesInParallel env None maxWorkers = Some empty.
Proof.
  intros env maxWorkers. split; reflexivity.
Qed.

(** ** [getTopWords] *)

Lemma Array_slice_prefix {A} (n : Z) (l : list A) :
  0 <= n -> Array_slice 0 n l = firstn (Z.to_nat n) l.
Proof.
  intro Hn. unfold Array_slice. cbv zeta.
  change (0 <? 0) with false. cbv iota.
  destruct (Z.ltb_spec n 0) as [Hneg | _]; [lia|].
  rewrite (Z.min_l 0) by lia. simpl skipn.
  destruct (Z.le_ge_cases n (Z.of_nat (length l))) as [Hle | Hge].
  - rewrite Z.min_l by lia. f_equal. lia.
  - rewrite Z.min_r by lia.
    replace (Z.to_nat (Z.max (Z.of_nat (length l) - 0) 0)) with (length l) by lia.
    rewrite firstn_all. symmetry. apply firstn_all2. lia.
Qed.

Lemma StronglySorted_map {A B} (R : A -> A -> Prop) (R' : B -> B -> Prop)
    (f : A -> B) (l : list A) :
  (forall a b, R a b -> R' (f a) (f b)) ->
  StronglySorted R l -> StronglySorted R' (map f l).
Proof.
  intros HR. induction 1 as [|x l Hl IH Hx]; simpl; constructor.
  - exact IH.
  - apply Forall_map. eapply Forall_impl; [|exact Hx]. auto.
Qed.

(** C7: for [N >= 0], [getTopWords] returns the first [N] entries of an
    arrangement of all the entries of the map by count descending; [N = 0]
    gives the empty sequence, and an [N] from the number of distinct tokens
    on gives every entry. *)
Theorem getTopWords_sorted_truncated :
  forall (m : JSMap Z) (n : Z),
    0 <= n ->
    exists sorted : list TopWord,
      Permutation sorted (map (fun e => {| word := fst e; count := snd e |}) m)
      /\ StronglySorted (fun a b => count a >= count b) sorted
      /\ getTopWords m (Some n) = firstn (Z.to_nat n) sorted
      /\ getTopWords m (Some 0) = []
      /\ getTopWords m (Some (Map_size m + n)) = sorted.
Proof.
  intros m n Hn.
  set (cmp := fun a b : jsstring * Z => snd b - snd a).
  set (mk := fun e : jsstring * Z => {| word := fst e; count := snd e |}).
  exists (map mk (Array_sort cmp m)). repeat split.
  - apply Permutation_map, Array_sort_perm.
  - apply (@StronglySorted_map _ _ (fun a b => cmp a b <= 0)).
    + intros a b. unfold cmp, mk. simpl. lia.
    + apply Array_sort_sorted; unfold cmp; intros; lia.
  - unfold getTopWords. fold cmp mk.
    now rewrite Array_slice_prefix, firstn_map by exact Hn.
  - unfold getTopWords. fold cmp mk. now rewrite Array_slice_prefix by lia.
  - unfold getTopWords. fold cmp mk.
    rewrite Array_slice_prefix by (unfold Map_size; lia).
    f_equal. apply firstn_all2. rewrite Array_sort_length.
    unfold Map_size. lia.
Qed.

(** The first of two entries. *)
Lemma getTopWords_sorted_truncated_witness :
  exists sorted : list TopWord,
    StronglySorted (fun a b => count a >= count b) sorted
    /\ getTopWords [(lit "world"%string, 1); (lit "hello"%string, 2)] (Some 1)
       = firstn 1 sorted.
Proof.
  destruct (@getTopWords_sorted_truncated
              [(lit "world"%string, 1); (lit "hello"%string, 2)] 1
              ltac:(lia))
    as [sorted [_ [Hs [Hn _]]]].
  exists sorted. split; [exact Hs | exact Hn].
Defined.

(** ** Workers *)

Lemma firstComplete_skips_progress workerId filePath events tail :
  firstComplete
    (flat_map
       (fun ev => match ev with
                  | OnProgress _ => [ProgressMessage workerId filePath]
                  | _ => []
                  end) events ++ tail)
  = firstComplete tail.
Proof.
  induction events as [|ev events IH]; simpl; [reflexivity|].
  destruct ev; simpl; exact IH.
Qed.

(** Every worker settles its promise, with the outcome of its file. *)
Lemma createWorker_outcome env filePath workerId :
  createWorker env filePath workerId = Some (completeOf env workerId filePath).
Proof.
  unfold createWorker, completeOf, outcomeOf, processFile.
  destruct (workerFault env filePath); [reflexivity|].
  destruct (countWords env filePath _) as [events outcome]. simpl.
  rewrite firstComplete_skips_progress. now destruct outcome.
Qed.

Lemma workerIds_files batch : forall i index,
  map fst (workerIds i index batch) = batch.
Proof.
  induction batch as [|f batch IH]; intros i index; simpl; [reflexivity|].
  now rewrite IH.
Qed.

Lemma Promise_all_workers env (ids : list (jsstring * Z)) :
  Promise_all (map (fun w => createWorker env (fst w) (snd w)) ids)
  = Some (map (fun w => completeOf env (snd w) (fst w)) ids).
Proof.
  induction ids as [|w ids IH]; simpl; [reflexivity|].
  now rewrite createWorker_outcome, IH.
Qed.

Lemma fold_recordResult env (ids : list (jsstring * Z)) : forall r,
  fold_left recordResult (map (fun w => completeOf env (snd w) (fst w)) ids) r
  = fold_left (recordFile env) (map fst ids) r.
Proof.
  induction ids as [|w ids IH]; intro r; simpl; [reflexivity|].
  rewrite IH. reflexivity.
Qed.

Lemma runBatch_records env i batch st :
  runBatch env i batch st
  = Some {| results := fold_left (recordFile env) batch (results st);
            launched := launched st ++ [workerIds i 0 batch] |}.
Proof.
  unfold runBatch.
  now rewrite Promise_all_workers, fold_recordResult, workerIds_files.
Qed.

(** ** The batch loop *)

Lemma Array_slice_batch {A} (i E : Z) (l : list A) :
  0 <= i < Z.of_nat (length l) -> 1 <= E ->
  Array_slice i (i + E) l = firstn (Z.to_nat E) (skipn (Z.to_nat i) l).
Proof.
  intros Hi HE. unfold Array_slice. cbv zeta.
  destruct (Z.ltb_spec i 0); [lia|].
  destruct (Z.ltb_spec (i + E) 0); [lia|].
  rewrite (Z.min_l i) by lia.
  destruct (Z.le_ge_cases (i + E) (Z.of_nat (length l))) as [Hle | Hge].
  - rewrite Z.min_l by lia. f_equal. lia.
  - rewrite Z.min_r by lia.
    rewrite (@firstn_all2 _ (Z.to_nat E)) by (rewrite length_skipn; lia).
    apply firstn_all2. rewrite length_skipn. lia.
Qed.

Lemma Batches_of_nil {A} (E : Z) (bs : list (list A)) :
  Batches E [] bs -> bs = [].
Proof.
  intro H. remember [] as l eqn:Hl.
  destruct H as [| b Hb _ | b rest bs' _ Hrest _].
  - reflexivity.
  - congruence.
  - apply app_eq_nil in Hl as [_ ->]. congruence.
Qed.

Lemma Batches_step {A} (E : Z) (l : list A) (bs : list (list A)) :
  1 <= E -> l <> [] ->
  Batches E (skipn (Z.to_nat E) l) bs ->
  Batches E l (firstn (Z.to_nat E) l :: bs).
Proof.
  intros HE Hl H.
  destruct (skipn (Z.to_nat E) l) as [|x rest] eqn:Hrest.
  - apply Batches_of_nil in H as ->.
    assert (Hall : firstn (Z.to_nat E) l = l).
    { rewrite <- (firstn_skipn (Z.to_nat E) l) at 2.
      now rewrite Hrest, app_nil_r. }
    rewrite Hall. apply Batches_last; [exact Hl|].
    rewrite <- Hall, length_firstn. lia.
  - rewrite <- (firstn_skipn (Z.to_nat E) l) at 1. rewrite Hrest.
    apply Batches_full; [|discriminate|exact H].
    rewrite length_firstn.
    assert (Hlen : (length (skipn (Z.to_nat E) l) > 0)%nat)
      by (rewrite Hrest; simpl; lia).
    rewrite length_skipn in Hlen. lia.
Qed.

Lemma batchLoop_records env files E :
  1 <= E ->
  forall fuel i st,
    0 <= i -> Z.of_nat (length files) - i <= Z.of_nat fuel ->
    exists bs,
      batchLoop env files E fuel i st
      = Some {| results :=
                  fold_left (recordFile env) (skipn (Z.to_nat i) files)
                    (results st);
                launched := launched st ++ bs |}
      /\ Batches E (skipn (Z.to_nat i) files) (map (map fst) bs).
Proof.
  intros HE fuel. induction fuel as [|fuel IH]; intros i st Hi Hfuel.
  - simpl. destruct (Z.ltb_spec i (Z.of_nat (length files))); [lia|].
    exists []. rewrite skipn_all2 by lia. simpl. rewrite app_nil_r.
    destruct st; split; [reflexivity | constructor].
  - simpl. destruct (Z.ltb_spec i (Z.of_nat (length files))) as [Hlt | Hge].
    + rewrite runBatch_records, Array_slice_batch by lia.
      set (l := skipn (Z.to_nat i) files).
      set (st' := {| results := _; launched := _ |}).
      destruct (IH (i + E) st') as [bs [Hrun Hbs]]; [lia | lia |].
      exists (workerIds i 0 (firstn (Z.to_nat E) l) :: bs).
      assert (Hskip : skipn (Z.to_nat (i + E)) files = skipn (Z.to_nat E) l).
      { unfold l. rewrite skipn_skipn. f_equal. lia. }
      rewrite Hskip in Hrun, Hbs. split.
      * rewrite Hrun. unfold st'. simpl.
        rewrite <- fold_left_app, firstn_skipn, <- app_assoc. reflexivity.
      * simpl. rewrite workerIds_files. apply Batches_step; [exact HE | | exact Hbs].
        intro Hnil. apply (f_equal (@length _)) in Hnil.
        unfold l in Hnil. rewrite length_skipn in Hnil. simpl in Hnil. lia.
    + exists []. rewrite skipn_all2 by lia. simpl. rewrite app_nil_r.
      destruct st; split; [reflexivity | constructor].
Qed.

Lemma effectiveWorkers_pos maxWorkers fileCount numCPUs :
  1 <= effectiveWorkers maxWorkers fileCount numCPUs.
Proof. unfold effectiveWorkers. lia. Qed.

(** The run as a whole: it returns, its batches split the list, and its
    results are those of recording the files one after the other. *)
Lemma processFilesInParallel_runs env files maxWorkers :
  let M := match maxWorkers with Some m => m | None => cpus env end in
  let E := effectiveWorkers M (Z.of_nat (length files)) (cpus env) in
  let r := fold_left (recordFile env) files emptyResults in
  exists bs,
    processFilesInParallel env (Some files) maxWorkers
    = Some {| results :=
                {| successful := successful r;
                   failed := failed r;
                   combinedWordMap := combinedWordMap r;
                   totalWords := totalWords r;
                   totalUniqueWords := Map_size (combinedWordMap r);
                   totalLinesProcessed := totalLinesProcessed r |};
              launched := bs |}
    /\ Batches E files (map (map fst) bs).
Proof.
  intros M E r. destruct files as [|f files].
  - exists []. split; [reflexivity | constructor].
  - unfold processFilesInParallel. fold M. fold E.
    destruct (@batchLoop_records env (f :: files) E (effectiveWorkers_pos _ _ _)
                (length (f :: files)) 0
                {| results := emptyResults; launched := [] |})
      as [bs [Hrun Hbs]]; [lia | lia |].
    exists bs. rewrite Hrun. split; [reflexivity | exact Hbs].
Qed.

Lemma Batches_concat {A} (E : Z) (l : list A) (bs : list (list A)) :
  Batches E l bs -> concat bs = l.
Proof.
  induction 1 as [| b _ _ | b rest bs _ _ _ IH]; simpl.
  - reflexivity.
  - apply app_nil_r.
  - now rewrite IH.
Qed.

Lemma Batches_count {A} (E : Z) (l : list A) (bs : list (list A)) :
  1 <= E -> Batches E l bs ->
  Z.of_nat (length bs) = (Z.of_nat (length l) + E - 1) / E.
Proof.
  intros HE. induction 1 as [| b Hb Hle | b rest bs Hb _ _ IH].
  - simpl. symmetry. apply Z.div_small. lia.
  - assert (Hpos : (0 < length b)%nat) by (destruct b; simpl; [congruence | lia]).
    change (Z.of_nat (length [b])) with 1.
    apply (Z.div_unique _ _ 1 (Z.of_nat (length b) - 1)); lia.
  - simpl length. rewrite length_app, Nat2Z.inj_succ, Nat2Z.inj_add, IH, Hb.
    replace (E + Z.of_nat (length rest) + E - 1)
      with (1 * E + (Z.of_nat (length rest) + E - 1)) by lia.
    rewrite Z.div_add_l by lia. lia.
Qed.

Lemma sumZ_app (a b : list Z) : sumZ (a ++ b) = sumZ a + sumZ b.
Proof. unfold sumZ. induction a as [|x a IH]; simpl; lia. Qed.

(** What recording one file adds to the results. *)
Lemma recordFile_step env r f :
  successful (recordFile env r f) = successful r ++ successOf env f
  /\ failed (recordFile env r f) = failed r ++ failureOf env f
  /\ combinedWordMap (recordFile env r f)
     = fold_left (fun acc m => mergeMaps [acc; m]) (mapOf env f)
         (combinedWordMap r)
  /\ totalWords (recordFile env r f)
     = totalWords r + sumZ (map ok_totalWords (successOf env f))
  /\ totalLinesProcessed (recordFile env r f)
     = totalLinesProcessed r + sumZ (map ok_linesProcessed (successOf env f)).
Proof.
  unfold recordFile, recordResult, completeOf, successOf, failureOf, mapOf.
  simpl. destruct (outcomeOf env f) as [e | d]; simpl;
    rewrite ?app_nil_r; repeat split; lia.
Qed.

(** What recording a list of files adds to the results. *)
Lemma recordFile_fold env files : forall r,
  let r' := fold_left (recordFile env) files r in
  successful r' = successful r ++ flat_map (successOf env) files
  /\ failed r' = failed r ++ flat_map (failureOf env) files
  /\ combinedWordMap r'
     = fold_left (fun acc m => mergeMaps [acc; m]) (flat_map (mapOf env) files)
         (combinedWordMap r)
  /\ totalWords r'
     = totalWords r + sumZ (map ok_totalWords (flat_map (successOf env) files))
  /\ totalLinesProcessed r'
     = totalLinesProcessed r
       + sumZ (map ok_linesProcessed (flat_map (successOf env) files)).
Proof.
  induction files as [|f files IH]; intro r; simpl.
  - rewrite !app_nil_r. repeat split; lia.
  - destruct (IH (recordFile env r f)) as (Hs & Hf & Hc & Hw & Hl).
    destruct (recordFile_step env r f) as (Hs1 & Hf1 & Hc1 & Hw1 & Hl1).
    rewrite Hs, Hf, Hc, Hw, Hl, Hs1, Hf1, Hc1, Hw1, Hl1.
    rewrite !map_app, !sumZ_app, fold_left_app, <- !app_assoc.
    repeat split; lia.
Qed.

Lemma flat_map_lengths env files :
  (length (flat_map (successOf env) files)
   + length (flat_map (failureOf env) files) = length files)%nat.
Proof.
  induction files as [|f files IH]; simpl; [reflexivity|].
  rewrite !length_app.
  assert (H1 : (length (successOf env f) + length (failureOf env f) = 1)%nat).
  { unfold successOf, failureOf. now destruct (outcomeOf env f). }
  lia.
Qed.

(** C3: the effective concurrency is [E = max(1, min(M, fileCount, U))],
    where an unset [M] stands for [U]; the run cuts the file list, in order,
    into consecutive batches of size [E], the last one possibly smaller, that
    is into the ceiling of [fileCount / E] batches.  Ten files with [M = 4]
    on 8 units give [E = 4] and batches of sizes 4, 4 and 2. *)
Theorem scheduler_batches :
  (forall (env : Env) (files : list jsstring) (maxWorkers : option Z),
      let U := cpus env in
      let M := match maxWorkers with Some m => m | None => U end in
      let n := Z.of_nat (length files) in
      let E := effectiveWorkers M n U in
      E = Z.max 1 (Z.min M (Z.min n U))
      /\ exists run,
          processFilesInParallel env (Some files) maxWorkers = Some run
          /\ Batches E files (map (map fst) (launched run))
          /\ concat (map (map fst) (launched run)) = files
          /\ Z.of_nat (length (launched run)) = (n + E - 1) / E)
  /\ effectiveWorkers 4 10 8 = 4
  /\ exists run,
      processFilesInParallel eightUnitsEnv (Some tenFiles) (Some 4) = Some run
      /\ map (@length _) (launched run) = [4; 4; 2]%nat
      /\ map (map fst) (launched run)
         = [firstn 4 tenFiles; firstn 4 (skipn 4 tenFiles); skipn 8 tenFiles].
Proof.
  split; [|split].
  - intros env files maxWorkers U M n E. split.
    + unfold E, effectiveWorkers. lia.
    + destruct (processFilesInParallel_runs env files maxWorkers)
        as [bs [Hrun Hbs]].
      eexists. split; [exact Hrun|]. simpl. fold U M n E in Hbs.
      split; [exact Hbs|]. split.
      * now apply (Batches_concat Hbs).
      * rewrite <- (length_map (map fst) bs).
        apply (Batches_count (effectiveWorkers_pos _ _ _) Hbs).
  - reflexivity.
  - eexists. split; [vm_compute; reflexivity|]. split; reflexivity.
Qed.

(** C4: an error stays with its file.  Whatever the files, the host
    and the configured concurrency, the run returns; the failed list holds, in
    order, the paths whose worker ended in an error, each with that error; the
    successful list holds the others; the combined map and the totals are
    built from the successes alone.  The outcome recorded for a file is the
    one its worker settles with, a function of that file and the host alone.
    A path that does not exist is recorded with the
    ENOENT error of [countWords].  With three paths of which the second
    does not exist, the failed list is that one path with kind NotFound, the
    successful list is the other two, and the totals are theirs. *)
Theorem failures_are_isolated :
  (forall (env : Env) (files : list jsstring) (maxWorkers : option Z),
      exists run,
        processFilesInParallel env (Some files) maxWorkers = Some run
        /\ successful (results run) = flat_map (successOf env) files
        /\ failed (results run) = flat_map (failureOf env) files
        /\ combinedWordMap (results run)
           = fold_left (fun acc m => mergeMaps [acc; m])
               (flat_map (mapOf env) files) []
        /\ totalWords (results run)
           = sumZ (map ok_totalWords (flat_map (successOf env) files))
        /\ totalLinesProcessed (results run)
           = sumZ (map ok_linesProcessed (flat_map (successOf env) files))
        /\ totalUniqueWords (results run)
           = Map_size (combinedWordMap (results run))
        /\ (length (successful (results run))
            + length (failed (results run)) = length files)%nat)
  /\ (forall (env : Env) (f : jsstring) (workerId : Z),
         createWorker env f workerId
         = Some {| c_workerId := workerId; c_filePath := f;
                   c_outcome := outcomeOf env f |})
  /\ (forall (env : Env) (f : jsstring),
         match fs env f, workerFault env f with
         | Missing, None =>
             failureOf env f
             = [{| ko_filePath := f;
                   ko_error := {| e_message := ascii_ENOENT ++ f;
                                  e_code := lit "UNKNOWN"%string |} |}]
             /\ successOf env f = []
             /\ kindOf (ascii_ENOENT ++ f) = NotFound
         | _, _ => True
         end)
  /\ exists run e,
      processFilesInParallel twoFilesEnv
        (Some [lit "a.txt"%string; lit "b.txt"%string; lit "c.txt"%string]) None
      = Some run
      /\ failed (results run)
         = [{| ko_filePath := lit "b.txt"%string; ko_error := e |}]
      /\ kindOf (e_message e) = NotFound
      /\ map ok_filePath (successful (results run))
         = [lit "a.txt"%string; lit "c.txt"%string]
      /\ map ok_totalWords (successful (results run)) = [3; 3]
      /\ totalWords (results run) = 6
      /\ totalLinesProcessed (results run) = 3
      /\ combinedWordMap (results run)
         = [(lit "hello"%string, 2); (lit "world"%string, 1);
            (lit "one"%string, 1); (lit "two"%string, 2)]
      /\ totalUniqueWords (results run) = 4.
Proof.
  split; [|split; [|split]].
  - intros env files maxWorkers.
    destruct (processFilesInParallel_runs env files maxWorkers)
      as [bs [Hrun _]].
    destruct (recordFile_fold env files emptyResults) as (Hs & Hf & Hc & Hw & Hl).
    eexists. split; [exact Hrun|]. simpl.
    rewrite Hs, Hf, Hc, Hw, Hl. simpl.
    repeat split; try reflexivity. apply flat_map_lengths.
  - intros env f workerId. apply createWorker_outcome.
  - intros env f. unfold failureOf, successOf, outcomeOf, countWords.
    destruct (fs env f); try exact I.
    destruct (workerFault env f); [exact I|].
    simpl. repeat split; reflexivity.
  - eexists. eexists. split; [vm_compute; reflexivity|].
    repeat split; reflexivity.
Qed.

(** ** [normalizeLine] *)

Lemma latin1_cases (P : codeunit -> bool) :
  forallb P latin1 = true -> forall c, (c < 256)%N -> P c = true.
Proof.
  intros H c Hc. rewrite forallb_forall in H. apply H.
  unfold latin1. apply in_map_iff. exists (N.to_nat c).
  split; [lia | apply in_seq; lia].
Qed.

Lemma between_above lo hi c : (hi < c)%N -> between lo hi c = false.
Proof.
  intro H. unfold between. apply andb_false_iff. right. now apply N.leb_gt.
Qed.

Section AboveLatin1.
Variable c : codeunit.
Hypothesis high : (256 <= c)%N.

Lemma accented_above : existsb (N.eqb c) accented = false.
Proof.
  apply not_true_iff_false. rewrite existsb_exists. intros [a [Ha Hc]].
  apply N.eqb_eq in Hc. subst a.
  assert (F : forallb (fun a => (a <? 256)%N) accented = true) by reflexivity.
  rewrite forallb_forall in F. apply F, N.ltb_lt in Ha. lia.
Qed.

Lemma accented_upper_above :
  existsb (fun a => (c + 32 =? a)%N) accented = false.
Proof.
  apply not_true_iff_false. rewrite existsb_exists. intros [a [Ha Hc]].
  apply N.eqb_eq in Hc. subst a.
  assert (F : forallb (fun a => (a <? 256)%N) accented = true) by reflexivity.
  rewrite forallb_forall in F. apply F, N.ltb_lt in Ha. lia.
Qed.

Lemma wordChar_above : wordChar c = false.
Proof.
  unfold wordChar. rewrite !between_above by lia.
  simpl. apply N.eqb_neq. lia.
Qed.

Lemma digitOrUnderscore_above : digitOrUnderscore c = false.
Proof.
  unfold digitOrUnderscore. rewrite between_above by lia.
  simpl. apply N.eqb_neq. lia.
Qed.

Lemma isUpper_above : isUpper c = false.
Proof. unfold isUpper. now rewrite !between_above by lia. Qed.

Lemma listedLetter_above : listedLetter c = false.
Proof.
  unfold listedLetter.
  now rewrite !between_above, accented_above, accented_upper_above by lia.
Qed.

Lemma canonicalize_above : canonicalize c = c.
Proof.
  unfold canonicalize.
  now rewrite (@between_above 97 122 c), (@between_above 224 254 c) by lia.
Qed.

Lemma punctuation_above : punctuation c = negb (whiteSpace c).
Proof.
  unfold punctuation, sameFold. rewrite canonicalize_above.
  rewrite !between_above by lia. simpl.
  unfold inClass. rewrite wordChar_above, accented_above. simpl.
  now rewrite !orb_false_r.
Qed.
End AboveLatin1.

(** The negated class with its flags is the complement of the listed letters,
    digits, underscore and white space. *)
Lemma punctuation_listed c :
  punctuation c = negb (listedLetter c || digitOrUnderscore c || whiteSpace c).
Proof.
  destruct (N.lt_ge_cases c 256) as [Hlow | Hhigh].
  - apply eqb_prop.
    apply (latin1_cases
             (fun c => eqb (punctuation c)
                         (negb (listedLetter c || digitOrUnderscore c
                                || whiteSpace c)))); [|exact Hlow].
    vm_compute. reflexivity.
  - now rewrite punctuation_above, listedLetter_above, digitOrUnderscore_above.
Qed.

(** No code unit of a lower-cased string is an upper-case letter of the two
    Latin blocks. *)
Lemma lowerUnit_lower x c : In c (lowerUnit x) -> isUpper c = false.
Proof.
  destruct (N.lt_ge_cases x 256) as [Hlow | Hhigh].
  - intro Hin.
    assert (F : forallb (fun c => negb (isUpper c)) (lowerUnit x) = true).
    { apply (latin1_cases
               (fun x => forallb (fun c => negb (isUpper c)) (lowerUnit x)));
        [vm_compute; reflexivity | exact Hlow]. }
    rewrite forallb_forall in F. apply F in Hin.
    now destruct (isUpper c).
  - unfold lowerUnit. rewrite !between_above by lia. simpl.
    repeat match goal with
           | |- In _ (if ?b then _ else _) -> _ => destruct b
           end;
      simpl; intros H;
      repeat match goal with
             | H : _ \/ _ |- _ => destruct H as [H | H]
             | H : False |- _ => destruct H
             end;
      subst c; try reflexivity.
    now apply isUpper_above.
Qed.

Lemma toLowerCase_lower line c : In c (toLowerCase line) -> isUpper c = false.
Proof.
  unfold toLowerCase. rewrite in_flat_map. intros [x [_ Hc]].
  now apply (lowerUnit_lower x).
Qed.

Lemma kept_lower_is_tokenUnit c :
  punctuation c = false -> whiteSpace c = false -> isUpper c = false ->
  tokenUnit c = true.
Proof.
  destruct (N.lt_ge_cases c 256) as [Hlow | Hhigh].
  - intros Hp Hw Hu.
    assert (F : implb (negb (punctuation c) && negb (whiteSpace c)
                       && negb (isUpper c)) (tokenUnit c) = true).
    { apply (latin1_cases
               (fun c => implb (negb (punctuation c) && negb (whiteSpace c)
                                && negb (isUpper c)) (tokenUnit c)));
        [vm_compute; reflexivity | exact Hlow]. }
    now rewrite Hp, Hw, Hu in F.
  - rewrite punctuation_above by exact Hhigh. intros Hp Hw.
    rewrite Hw in Hp. discriminate.
Qed.

(** Splitting on white space and dropping the empty pieces gives the
    fields. *)
Lemma split_filter_fields s : forall piece inRun,
  (inRun = true -> piece = []) ->
  filter (fun word => 0 <? Z.of_nat (length word))
    (splitWhiteSpace s piece inRun)
  = fields whiteSpace s piece.
Proof.
  induction s as [|c s IH]; intros piece inRun Hrun; simpl.
  - destruct piece as [|x piece]; simpl; [reflexivity|].
    rewrite length_app. simpl.
    destruct (Z.ltb_spec 0 (Z.of_nat (length (rev piece) + 1))); [reflexivity | lia].
  - destruct (whiteSpace c).
    + destruct inRun.
      * rewrite (Hrun eq_refl). now apply IH.
      * simpl. rewrite (IH [] true) by reflexivity.
        destruct piece as [|x piece]; simpl; [reflexivity|].
        rewrite length_app. simpl.
        destruct (Z.ltb_spec 0 (Z.of_nat (length (rev piece) + 1)));
          [reflexivity | lia].
    + apply IH. discriminate.
Qed.

Lemma fields_tokens (P : codeunit -> Prop) s : forall cur,
  Forall P cur ->
  (forall c, In c s -> whiteSpace c = false -> P c) ->
  Forall (fun t => t <> [] /\ Forall P t) (fields whiteSpace s cur).
Proof.
  assert (Hrev : forall cur : jsstring, cur <> [] -> Forall P cur ->
                 rev cur <> [] /\ Forall P (rev cur)).
  { intros cur Hne Hcur. split.
    - intro Hnil. apply Hne. now rewrite <- (rev_involutive cur), Hnil.
    - apply Forall_rev, Hcur. }
  induction s as [|c s IH]; intros cur Hcur Hs; simpl.
  - destruct cur as [|x cur]; constructor; [|constructor].
    apply Hrev; [discriminate | exact Hcur].
  - destruct (whiteSpace c) eqn:Hw.
    + assert (Hrest : Forall (fun t => t <> [] /\ Forall P t)
                        (fields whiteSpace s [])).
      { apply IH; [constructor|]. intros. apply Hs; simpl; auto. }
      destruct cur as [|x cur]; [exact Hrest|].
      constructor; [|exact Hrest]. apply Hrev; [discriminate | exact Hcur].
    + apply IH.
      * constructor; [|exact Hcur]. apply Hs; simpl; auto.
      * intros. apply Hs; simpl; auto.
Qed.

Lemma normalizeLine_fields line :
  normalizeLine line
  = fields whiteSpace
      (map (fun c => if punctuation c then 32%N else c) (toLowerCase line)) [].
Proof.
  unfold normalizeLine. apply split_filter_fields. discriminate.
Qed.

(** X22: What the source does: [normalizeLine] lowercases the line, replaces
    by a space every character that is neither an unaccented Latin letter, nor
    one of the listed accented letters (vowels with acute, grave, circumflex
    or diaeresis, n with tilde), nor a digit or underscore, nor white space,
    splits on runs of white space and drops the empty pieces.  Every token is
    non-empty and made of lower-case letters of that list, digits and
    underscores.  "Hello, hello WORLD!" gives hello, hello, world. *)
Theorem normalizeLine_listed_letters :
  (forall line : jsstring,
      normalizeLine line = listedNormalizer line
      /\ Forall (fun t => t <> [] /\ Forall (fun c => tokenUnit c = true) t)
           (normalizeLine line))
  /\ normalizeLine (lit "Hello, hello WORLD!"%string)
     = [lit "hello"%string; lit "hello"%string; lit "world"%string].
Proof.
  split; [|reflexivity].
  intro line. rewrite normalizeLine_fields. split.
  - unfold listedNormalizer, normalizeWith. f_equal.
    apply map_ext. intro c. rewrite punctuation_listed.
    now destruct (listedLetter c || digitOrUnderscore c || whiteSpace c).
  - apply fields_tokens; [constructor|].
    intros c Hin Hw. apply in_map_iff in Hin as [x [Hx Hin]].
    destruct (punctuation x) eqn:Hp.
    + subst c. discriminate.
    + subst c. apply kept_lower_is_tokenUnit; auto.
      now apply (toLowerCase_lower line).
Qed.

(** C2: the Normalizer keeps letters, accented letters included, but the
    character class of [normalizeLine] lists only some accented letters.  At
    the line "nov" followed by y with acute accent, a letter, the Normalizer
    as stated yields the whole word and [normalizeLine] cuts it after
    "nov". *)
Lemma normalizeLine_cuts_other_letters :
  letter 253%N = true
  /\ statedNormalizer novy = [novy]
  /\ normalizeLine novy = [[110; 111; 118]%N]
  /\ normalizeLine novy <> statedNormalizer novy.
Proof.
  repeat split; try reflexivity. discriminate.
Qed.

(** ** The totals of a run against its combined map *)

Lemma sumCounts_mergeInto es : forall acc,
  sumCounts (mergeInto acc es) = sumCounts acc + sumCounts es.
Proof.
  induction es as [|[k v] es IH]; intro acc.
  - change (mergeInto acc []) with acc. change (sumCounts []) with 0. lia.
  - change (mergeInto acc ((k, v) :: es))
      with (mergeInto (addEntry acc (k, v)) es).
    change (sumCounts ((k, v) :: es)) with (v + sumCounts es).
    rewrite IH. unfold addEntry. simpl fst. simpl snd.
    rewrite sumCounts_Map_set, orZero_countOf. lia.
Qed.

Lemma sumCounts_merge_pair (a b : JSMap Z) :
  sumCounts (mergeMaps [a; b]) = sumCounts a + sumCounts b.
Proof.
  rewrite mergeMaps_fold. simpl. now rewrite !sumCounts_mergeInto.
Qed.

Lemma sumCounts_merge_fold (ms : list (JSMap Z)) : forall acc,
  sumCounts (fold_left (fun acc m => mergeMaps [acc; m]) ms acc)
  = sumCounts acc + sumZ (map sumCounts ms).
Proof.
  induction ms as [|m ms IH]; intro acc; simpl.
  - lia.
  - rewrite IH, sumCounts_merge_pair. lia.
Qed.

Lemma sumCounts_perm (m m' : JSMap Z) :
  Permutation m m' -> sumCounts m = sumCounts m'.
Proof. unfold sumCounts. induction 1; simpl; lia. Qed.

Lemma sumCounts_without_proto (m : JSMap Z) :
  wf m -> sumCounts (filter notProto m) = sumCounts m - countOf m proto.
Proof.
  unfold wf, sumCounts, countOf, notProto.
  induction m as [|[k v] m IH]; simpl; intro H; [reflexivity|].
  inversion H as [|? ? Hn Hnd]; subst.
  destruct (str_eqb k proto) eqn:E; simpl.
  - apply str_eqb_eq in E. subst k.
    rewrite (IH Hnd). apply Map_get_None in Hn. rewrite Hn. lia.
  - rewrite (IH Hnd). lia.
Qed.

Lemma roundtrip_entries (m : JSMap Z) :
  wf m -> objectToMap (mapToObject m) = Object_entries (filter notProto m).
Proof.
  intro H. pose proof (filter_wf notProto H) as Hf.
  unfold mapToObject. rewrite mapToObject_filter.
  rewrite (Map_from_fresh (filter notProto m) []) by exact Hf. simpl.
  unfold objectToMap, Map_from.
  rewrite (Map_from_fresh (Object_entries (filter notProto m)) []);
    [reflexivity|].
  simpl. eapply Permutation_NoDup; [|exact Hf].
  apply Permutation_map, Permutation_sym, Object_entries_perm.
Qed.

Lemma sumCounts_roundtrip (m : JSMap Z) :
  wf m -> sumCounts (objectToMap (mapToObject m)) = sumCounts m - countOf m proto.
Proof.
  intro H. rewrite (roundtrip_entries H), <- (sumCounts_without_proto H).
  apply sumCounts_perm, Object_entries_perm.
Qed.

(** One file: the words it adds to the total are the counts it adds to the
    combined map, plus its occurrences of [__proto__]. *)
Lemma file_total_and_map env f :
  sumZ (map ok_totalWords (successOf env f))
  = sumZ (map sumCounts (mapOf env f)) + protoCount env f.
Proof.
  unfold successOf, mapOf, outcomeOf, protoCount.
  destruct (workerFault env f); [reflexivity|].
  destruct (snd (countWords env f _)) as [e | r] eqn:Hscan; [reflexivity|].
  destruct (countWords_totalWords _ _ _ Hscan) as (Htotal & _ & Hwf).
  simpl. rewrite (sumCounts_roundtrip Hwf), Htotal. fold proto. lia.
Qed.

Lemma files_total_and_maps env files :
  sumZ (map ok_totalWords (flat_map (successOf env) files))
  = sumZ (map sumCounts (flat_map (mapOf env) files))
    + sumZ (map (protoCount env) files).
Proof.
  induction files as [|f files IH]; [reflexivity|].
  cbn [flat_map map]. rewrite !map_app, !sumZ_app, file_total_and_map, IH.
  change (sumZ (protoCount env f :: map (protoCount env) files))
    with (protoCount env f + sumZ (map (protoCount env) files)).
  lia.
Qed.

(** X8: The total of a run exceeds the sum of its combined map by the number of
    occurrences of [__proto__] in the files that succeed; the two agree
    when no file holds that word. *)
Theorem aggregate_total_and_map env files maxWorkers :
  exists run,
    processFilesInParallel env (Some files) maxWorkers = Some run
    /\ totalWords (results run)
       = sumCounts (combinedWordMap (results run))
         + sumZ (map (protoCount env) files).
Proof.
  destruct (processFilesInParallel_runs env files maxWorkers) as [bs [Hrun _]].
  destruct (recordFile_fold env files emptyResults) as (_ & _ & Hc & Hw & _).
  eexists. split; [exact Hrun|]. simpl. rewrite Hc, Hw, sumCounts_merge_fold.
  rewrite files_total_and_maps.
  change (sumCounts (combinedWordMap emptyResults)) with 0.
  change (totalWords emptyResults) with 0. lia.
Qed.

(** ** What a scan counts *)

Lemma Map_set_keys_seen {V} (m : JSMap V) k v :
  map fst (Map_set m k v)
  = if existsb (str_eqb k) (map fst m) then map fst m else map fst m ++ [k].
Proof.
  induction m as [|[k0 v0] m IH]; simpl; [reflexivity|].
  rewrite (str_eqb_sym k k0).
  destruct (str_eqb k0 k) eqn:E; simpl.
  - apply str_eqb_eq in E. now subst k0.
  - rewrite IH. now destruct (existsb (str_eqb k) (map fst m)).
Qed.

(** The inner loop of [countWords] over a sequence of words. *)
Lemma countWord_fold ws : forall wm total,
  let r := fold_left countWord ws (wm, total) in
  snd r = total + Z.of_nat (length ws)
  /\ (forall w, countOf (fst r) w = countOf wm w + occurrences w ws)
  /\ map fst (fst r)
     = fold_left
         (fun seen x => if existsb (str_eqb x) seen then seen else seen ++ [x])
         ws (map fst wm).
Proof.
  induction ws as [|x ws IH]; intros wm total; cbn zeta.
  - simpl. repeat split; intros; lia.
  - cbn [fold_left]. unfold countWord at 2 4 6.
    destruct (IH (Map_set wm x (orZero (Map_get wm x) + 1)) (total + 1))
      as (Ht & Hc & Hk).
    cbn zeta in Ht, Hc, Hk. rewrite Ht. split; [|split].
    + simpl length. lia.
    + intro w. rewrite Hc.
      change (Map_set wm x (orZero (Map_get wm x) + 1)) with (addEntry wm (x, 1)).
      rewrite countOf_addEntry. simpl. lia.
    + rewrite Hk, Map_set_keys_seen. reflexivity.
Qed.

(** The two loops of [countWords] together are the inner loop over all the
    tokens of the file. *)
Lemma scan_fold opts lines : forall st,
  (s_wordMap (fold_left (scanLine opts) lines st),
   s_totalWords (fold_left (scanLine opts) lines st))
  = fold_left countWord (tokensOf lines) (s_wordMap st, s_totalWords st).
Proof.
  induction lines as [|l lines IH]; intro st; simpl; [reflexivity|].
  rewrite IH, fold_left_app. f_equal. unfold scanLine.
  now destruct (fold_left countWord (normalizeLine l)
                  (s_wordMap st, s_totalWords st)).
Qed.

(** X1: The map of a scan counts the occurrences of each token of the file; its
    keys are the distinct tokens in the order of their first occurrence;
    [totalWords] is the number of tokens, [uniqueWords] the number of
    distinct tokens and [linesProcessed] the number of lines. *)
Theorem countWords_counts_tokens :
  forall (env : Env) (filePath : jsstring) (opts : Options),
    match fs env filePath with
    | Regular lines None =>
        exists r,
          snd (countWords env filePath opts) = inr r
          /\ (forall w, countOf (wordMap r) w = occurrences w (tokensOf lines))
          /\ map fst (wordMap r) = Set_from (tokensOf lines)
          /\ WordCounter.totalWords r = Z.of_nat (length (tokensOf lines))
          /\ uniqueWords r = Z.of_nat (length (Set_from (tokensOf lines)))
          /\ linesProcessed r = Z.of_nat (length lines)
    | _ => True
    end.
Proof.
  intros env filePath opts. unfold countWords.
  destruct (fs env filePath) as [| |lines [e|]]; try exact I.
  set (st0 := {| s_wordMap := []; s_totalWords := 0; s_linesProcessed := 0;
                 s_events := _ |}).
  pose proof (scan_fold opts lines st0) as Hfold.
  destruct (countWord_fold (tokensOf lines) [] 0) as (Ht & Hc & Hk).
  cbn zeta in Ht, Hc, Hk. simpl s_wordMap in Hfold. simpl s_totalWords in Hfold.
  rewrite <- Hfold in Ht, Hc, Hk. simpl in Ht, Hc, Hk.
  eexists. split; [reflexivity|]. simpl. repeat split.
  - intro w. rewrite Hc. reflexivity.
  - exact Hk.
  - exact Ht.
  - unfold Map_size. rewrite <- (length_map fst), Hk. reflexivity.
  - now rewrite scan_lines.
Qed.

Lemma scan_result_options env filePath opts opts' :
  snd (countWords env filePath opts) = snd (countWords env filePath opts').
Proof.
  unfold countWords.
  destruct (fs env filePath) as [| |lines failure]; try reflexivity.
  set (st0 := {| s_wordMap := []; s_totalWords := 0; s_linesProcessed := 0;
                 s_events := _ |}).
  pose proof (scan_fold opts lines st0) as H.
  rewrite <- (scan_fold opts' lines st0) in H. injection H as Hm Ht.
  destruct failure; simpl; [reflexivity|].
  now rewrite Hm, Ht, !scan_lines.
Qed.

(** X2: The progress options change what is reported, never what is counted. *)
Theorem countWords_result_ignores_options :
  forall (env : Env) (filePath : jsstring) (opts opts' : Options),
    snd (countWords env filePath opts) = snd (countWords env filePath opts').
Proof.
  intros env filePath opts opts'. apply scan_result_options.
Qed.

(** ** When the progress callback is called *)

Lemma progressLines_app (a b : list Event) :
  progressLines (a ++ b) = progressLines a ++ progressLines b.
Proof. unfold progressLines. apply flat_map_app. Qed.

Lemma scanLine_progress opts st line :
  progressLines (s_events (scanLine opts st line))
  = progressLines (s_events st)
    ++ (if onProgress opts && remIsZero (s_linesProcessed st + 1) (intervalOf opts)
        then [s_linesProcessed st + 1] else []).
Proof.
  unfold scanLine, intervalOf.
  destruct (fold_left countWord (normalizeLine line)
              (s_wordMap st, s_totalWords st)) as [wm total].
  simpl. rewrite progressLines_app.
  now destruct (onProgress opts && remIsZero _ _).
Qed.

Lemma shifted_numbers (s : Z) (n : nat) :
  map (fun j => s + 1 + Z.of_nat j) (seq 1 n)
  = map (fun j => s + Z.of_nat j) (seq 2 n).
Proof.
  rewrite <- (seq_shift n 1), map_map. apply map_ext. intro j. lia.
Qed.

Lemma scan_progress opts lines : forall st,
  progressLines (s_events (fold_left (scanLine opts) lines st))
  = progressLines (s_events st)
    ++ (if onProgress opts
        then filter (fun i => remIsZero i (intervalOf opts))
               (map (fun j => s_linesProcessed st + Z.of_nat j)
                  (seq 1 (length lines)))
        else []).
Proof.
  induction lines as [|l lines IH]; intro st.
  - simpl. destruct (onProgress opts); now rewrite app_nil_r.
  - cbn [fold_left length]. rewrite IH, scanLine_progress, scanLine_lines.
    rewrite <- app_assoc. f_equal.
    destruct (onProgress opts); [|reflexivity]. cbn [andb seq map filter].
    replace (s_linesProcessed st + Z.of_nat 1) with (s_linesProcessed st + 1) by lia.
    rewrite (shifted_numbers (s_linesProcessed st) (length lines)).
    now destruct (remIsZero (s_linesProcessed st + 1) (intervalOf opts)).
Qed.

Lemma multiples_count (p : positive) (n : nat) :
  Z.of_nat (length (filter (fun i => remIsZero i (Z.pos p)) (lineNumbers n)))
  = Z.of_nat n / Z.pos p.
Proof.
  unfold lineNumbers. induction n as [|n IH].
  - reflexivity.
  - rewrite seq_S, map_app, filter_app, length_app, Nat2Z.inj_add, IH.
    cbn [map filter plus]. unfold remIsZero. simpl (Z.pos p =? 0).
    rewrite Z.rem_mod_nonneg by lia.
    pose proof (Z.div_mod (Z.of_nat n) (Z.pos p) ltac:(lia)) as Hn.
    pose proof (Z.mod_pos_bound (Z.of_nat n) (Z.pos p) ltac:(lia)) as Hr.
    pose proof (Z.div_mod (Z.of_nat (S n)) (Z.pos p) ltac:(lia)) as Hn'.
    pose proof (Z.mod_pos_bound (Z.of_nat (S n)) (Z.pos p) ltac:(lia)) as Hr'.
    destruct (Z.eqb_spec (Z.of_nat (S n) mod Z.pos p) 0) as [E | E];
      simpl length; nia.
Qed.

Lemma progress_of_scan env filePath opts :
  progressLines (fst (countWords env filePath opts))
  = match fs env filePath with
    | Regular lines _ =>
        if onProgress opts
        then filter (fun i => remIsZero i (intervalOf opts))
               (lineNumbers (length lines))
        else []
    | _ => []
    end.
Proof.
  unfold countWords.
  destruct (fs env filePath) as [| |lines failure]; try reflexivity.
  set (st0 := {| s_wordMap := []; s_totalWords := 0; s_linesProcessed := 0;
                 s_events := _ |}).
  assert (Hev : progressLines (s_events (fold_left (scanLine opts) lines st0))
                = if onProgress opts
                  then filter (fun i => remIsZero i (intervalOf opts))
                         (lineNumbers (length lines))
                  else []).
  { rewrite scan_progress. reflexivity. }
  destruct failure; exact Hev.
Qed.

(** X3: The progress callback is called exactly after the lines whose number is a
    multiple of the interval, with that number, and only when a callback is
    given; a path that is not scanned gives no call.  With a callback and an
    interval [K >= 1], a file of [n] lines gives [n / K] calls. *)
Theorem countWords_progress_calls :
  (forall (env : Env) (filePath : jsstring) (opts : Options),
      progressLines (fst (countWords env filePath opts))
      = match fs env filePath with
        | Regular lines _ =>
            if onProgress opts
            then filter (fun i => remIsZero i (intervalOf opts))
                   (lineNumbers (length lines))
            else []
        | _ => []
        end)
  /\ (forall (env : Env) (filePath : jsstring) (K : positive),
         match fs env filePath with
         | Regular lines _ =>
             Z.of_nat
               (length
                  (progressLines
                     (fst (countWords env filePath
                             {| onProgress := true;
                                progressInterval := Some (Z.pos K) |}))))
             = Z.of_nat (length lines) / Z.pos K
         | _ => True
         end).
Proof.
  assert (H := progress_of_scan).
  split; [exact H|].
  intros env filePath K. specialize (H env filePath
    {| onProgress := true; progressInterval := Some (Z.pos K) |}).
  destruct (fs env filePath) as [| |lines failure]; try exact I.
  rewrite H. simpl. apply multiples_count.
Qed.

(** ** More on [mergeMaps] *)

Lemma sumCounts_fold_mergeInto maps : forall acc,
  sumCounts (fold_left mergeInto maps acc)
  = sumCounts acc + sumZ (map sumCounts maps).
Proof.
  induction maps as [|m maps IH]; intro acc; simpl.
  - lia.
  - rewrite IH, sumCounts_mergeInto. lia.
Qed.

(** X4: Merging neither loses nor invents a count: the counts of the merged map
    sum to the sum over the maps merged. *)
Theorem mergeMaps_keeps_total :
  forall maps : list (JSMap Z),
    sumCounts (mergeMaps maps) = sumZ (map sumCounts maps).
Proof.
  intro maps. rewrite mergeMaps_fold, sumCounts_fold_mergeInto. reflexivity.
Qed.

Lemma merge_pair_mergeInto (acc m : JSMap Z) :
  wf acc -> mergeMaps [acc; m] = mergeInto acc m.
Proof.
  intro H. rewrite mergeMaps_fold. simpl.
  now rewrite (mergeInto_fresh acc []) by exact H.
Qed.

Lemma merge_fold_mergeInto (ms : list (JSMap Z)) : forall acc,
  wf acc ->
  fold_left (fun acc m => mergeMaps [acc; m]) ms acc = fold_left mergeInto ms acc.
Proof.
  induction ms as [|m ms IH]; intros acc H; simpl; [reflexivity|].
  rewrite merge_pair_mergeInto by exact H.
  apply IH. now apply mergeInto_wf.
Qed.

(** X5: Merging the maps one at a time into a running map, as the aggregator
    does, builds the same [Map] as one call on all of them: the same
    entries in the same order. *)
Theorem mergeMaps_one_at_a_time :
  forall maps : list (JSMap Z),
    fold_left (fun acc m => mergeMaps [acc; m]) maps [] = mergeMaps maps.
Proof.
  intro maps. rewrite mergeMaps_fold. apply merge_fold_mergeInto. constructor.
Qed.

Lemma Map_set_size {V} (m : JSMap V) k v :
  (length (Map_set m k v) <= length m + 1)%nat.
Proof.
  induction m as [|[k0 v0] m IH]; simpl; [lia|].
  destruct (str_eqb k0 k); simpl; lia.
Qed.

Lemma mergeInto_size es : forall acc,
  Map_size (mergeInto acc es) <= Map_size acc + Map_size es.
Proof.
  unfold Map_size, mergeInto.
  induction es as [|e es IH]; intro acc; [simpl; lia|].
  cbn [fold_left length]. specialize (IH (addEntry acc e)).
  pose proof (Map_set_size acc (fst e) (orZero (Map_get acc (fst e)) + snd e))
    as Hset.
  change (Map_set acc (fst e) (orZero (Map_get acc (fst e)) + snd e))
    with (addEntry acc e) in Hset.
  lia.
Qed.

Lemma mergeMaps_size maps :
  Map_size (mergeMaps maps) <= sumZ (map (@Map_size Z) maps).
Proof.
  rewrite mergeMaps_fold.
  assert (G : forall acc,
             Map_size (fold_left mergeInto maps acc)
             <= Map_size acc + sumZ (map (@Map_size Z) maps)).
  { induction maps as [|m maps IH]; intro acc; simpl; [lia|].
    specialize (IH (mergeInto acc m)). pose proof (mergeInto_size m acc).
    unfold sumZ in *. lia. }
  specialize (G []). unfold Map_size at 2 in G. simpl in G. lia.
Qed.

Lemma roundtrip_size (m : JSMap Z) :
  wf m -> Map_size (objectToMap (mapToObject m)) <= Map_size m.
Proof.
  intro H. rewrite (roundtrip_entries H). unfold Map_size.
  rewrite (Permutation_length (Object_entries_perm (filter notProto m))).
  pose proof (filter_length_le notProto m). lia.
Qed.

Lemma file_unique_bound env f :
  sumZ (map (@Map_size Z) (mapOf env f))
  <= sumZ (map ok_uniqueWords (successOf env f)).
Proof.
  unfold successOf, mapOf, outcomeOf.
  destruct (workerFault env f); [simpl; lia|].
  destruct (snd (countWords env f _)) as [e | r] eqn:Hscan; [simpl; lia|].
  destruct (countWords_totalWords _ _ _ Hscan) as (_ & Hu & Hwf).
  simpl. rewrite Hu. pose proof (roundtrip_size Hwf). lia.
Qed.

Lemma files_unique_bound env files :
  sumZ (map (@Map_size Z) (flat_map (mapOf env) files))
  <= sumZ (map ok_uniqueWords (flat_map (successOf env) files)).
Proof.
  induction files as [|f files IH]; [simpl; lia|].
  cbn [flat_map]. rewrite !map_app, !sumZ_app.
  pose proof (file_unique_bound env f). lia.
Qed.

(** X9: The combined map of a run is the merge of the maps received from the
    files that succeed, in the order of the file list; it holds one entry per
    token, [totalUniqueWords] is its size, and that size never exceeds the sum
    of the [uniqueWords] of the successful files. *)
Theorem run_combined_map :
  forall (env : Env) (files : list jsstring) (maxWorkers : option Z),
    exists run,
      processFilesInParallel env (Some files) maxWorkers = Some run
      /\ combinedWordMap (results run) = mergeMaps (flat_map (mapOf env) files)
      /\ wf (combinedWordMap (results run))
      /\ totalUniqueWords (results run) = Map_size (combinedWordMap (results run))
      /\ totalUniqueWords (results run)
         <= sumZ (map ok_uniqueWords (successful (results run))).
Proof.
  intros env files maxWorkers.
  destruct (processFilesInParallel_runs env files maxWorkers) as [bs [Hrun _]].
  destruct (recordFile_fold env files emptyResults) as (Hs & _ & Hc & _ & _).
  eexists. split; [exact Hrun|]. simpl. rewrite Hc, Hs. simpl.
  rewrite merge_fold_mergeInto, <- mergeMaps_fold by constructor.
  repeat split.
  - apply mergeMaps_wf.
  - eapply Z.le_trans; [apply mergeMaps_size | apply files_unique_bound].
Qed.

(** ** More on the passage through a plain object *)

Lemma filter_all {A} (p : A -> bool) (l : list A) :
  Forall (fun x => p x = true) l -> filter p l = l.
Proof.
  induction 1 as [|x l Hx _ IH]; simpl; [reflexivity|]. now rewrite Hx, IH.
Qed.

Lemma filter_none {A} (p : A -> bool) (l : list A) :
  Forall (fun x => p x = false) l -> filter p l = [].
Proof.
  induction 1 as [|x l Hx _ IH]; simpl; [reflexivity|]. now rewrite Hx, IH.
Qed.

(** X7: A map whose keys are neither [__proto__] nor array indices comes back
    from the passage through a plain object as it went in: the same entries
    in the same order. *)
Theorem roundtrip_keeps_order :
  forall m : JSMap Z,
    wf m ->
    Forall (fun e => str_eqb (fst e) proto = false /\ arrayIndex (fst e) = None) m ->
    objectToMap (mapToObject m) = m.
Proof.
  intros m Hwf Hkeys. rewrite (roundtrip_entries Hwf).
  assert (Hp : filter notProto m = m).
  { apply filter_all. eapply Forall_impl; [|exact Hkeys].
    intros e [He _]. unfold notProto. now rewrite He. }
  rewrite Hp. unfold Object_entries.
  rewrite (@filter_none _ (@isIndexKey Z) m), filter_all; [reflexivity | |].
  - eapply Forall_impl; [|exact Hkeys].
    intros e [_ He]. unfold isIndexKey. now rewrite He.
  - eapply Forall_impl; [|exact Hkeys].
    intros e [_ He]. unfold isIndexKey. now rewrite He.
Qed.

(** The map of "world" once and "hello" twice. *)
Lemma roundtrip_keeps_order_witness :
  objectToMap (mapToObject [(lit "world"%string, 1); (lit "hello"%string, 2)])
  = [(lit "world"%string, 1); (lit "hello"%string, 2)].
Proof.
  apply roundtrip_keeps_order.
  - unfold wf. simpl. constructor.
    + intros [H | []]. discriminate H.
    + constructor; [intros [] | constructor].
  - repeat constructor.
Defined.

(** One entry for the token "a". *)
Lemma roundtrip_keeps_other_tokens_witness :
  sameMapping (objectToMap (mapToObject [(lit "a"%string, 1)]))
    (filter notProto [(lit "a"%string, 1)]).
Proof.
  exact (@roundtrip_keeps_other_tokens [(lit "a"%string, 1)] (wf_one _ _)).
Defined.

(** ** More on [getTopWords] *)

Lemma Array_slice_from_start {A} (stop : Z) (l : list A) :
  Array_slice 0 stop l
  = firstn (Z.to_nat (if stop <? 0 then Z.max (Z.of_nat (length l) + stop) 0
                      else Z.min stop (Z.of_nat (length l)))) l.
Proof.
  unfold Array_slice. cbv zeta. change (0 <? 0) with false. cbv iota.
  rewrite (Z.min_l 0) by lia. simpl skipn. f_equal.
  destruct (stop <? 0); lia.
Qed.

Lemma firstn_head_incl {A} (k : nat) (l : list A) : incl (firstn k l) l.
Proof. intros x Hx. rewrite <- (firstn_skipn k l). apply in_or_app. now left. Qed.

(** X11: The number of entries [getTopWords] returns: [min(n, size)] for
    [n >= 0], all but the last [-n] for a negative [n], and at most 10 when
    [n] is left out. *)
Theorem getTopWords_length :
  forall (m : JSMap Z) (n : option Z),
    Z.of_nat (length (getTopWords m n))
    = match n with
      | None => Z.min 10 (Map_size m)
      | Some k => if k <? 0 then Z.max (Map_size m + k) 0
                  else Z.min k (Map_size m)
      end.
Proof.
  intros m n. unfold getTopWords, Map_size.
  rewrite length_map, Array_slice_from_start, length_firstn, Array_sort_length.
  destruct n as [k|].
  - destruct (Z.ltb_spec k 0); lia.
  - change (10 <? 0) with false. cbv iota. lia.
Qed.

(** X12: Every entry [getTopWords] returns is an entry of the map, and the first
    one, when there is one, has the greatest count of the whole map. *)
Theorem getTopWords_entries_and_head :
  forall (m : JSMap Z) (n : option Z),
    incl (map (fun t => (word t, count t)) (getTopWords m n)) m
    /\ match getTopWords m n with
       | [] => True
       | t :: _ => Forall (fun e => snd e <= count t) m
       end.
Proof.
  intros m n. unfold getTopWords.
  set (cmp := fun a b : jsstring * Z => snd b - snd a).
  set (k := match n with Some k => k | None => 10 end).
  rewrite Array_slice_from_start.
  set (j := Z.to_nat _).
  pose proof (Array_sort_perm cmp m) as Hperm.
  assert (Hsorted : StronglySorted (fun a b => cmp a b <= 0) (Array_sort cmp m))
    by (apply Array_sort_sorted; unfold cmp; intros; lia).
  split.
  - rewrite map_map. simpl.
    intros e He. apply in_map_iff in He as [x [Hx Hin]].
    destruct x as [w c]. simpl in Hx. subst e.
    apply (Permutation_in _ Hperm). now apply (firstn_head_incl j).
  - destruct (Array_sort cmp m) as [|x sorted] eqn:Hs.
    + now rewrite firstn_nil.
    + destruct j; simpl; [exact I|].
      apply (Permutation_Forall Hperm).
      inversion Hsorted as [|? ? _ Hx]; subst.
      constructor; [lia|].
      eapply Forall_impl; [|exact Hx]. unfold cmp. intros e He. simpl in He. lia.
Qed.

Lemma sort_insert_class (c : Z) (x : jsstring * Z) (l : list (jsstring * Z)) :
  filter (fun e => snd e =? c) (sort_insert (fun a b => snd b - snd a) x l)
  = filter (fun e => snd e =? c) (x :: l).
Proof.
  induction l as [|y l IH]; simpl; [reflexivity|].
  destruct (Z.leb_spec (snd y - snd x) 0) as [Hle | Hgt]; [reflexivity|].
  simpl. rewrite IH. simpl.
  destruct (Z.eqb_spec (snd x) c), (Z.eqb_spec (snd y) c); try reflexivity. lia.
Qed.

(** X13: The sort of [getTopWords] is stable: among the entries of one count, the
    order of the map is kept. *)
Theorem getTopWords_keeps_order_of_ties :
  forall (m : JSMap Z) (c : Z),
    filter (fun t => count t =? c) (getTopWords m (Some (Map_size m)))
    = map (fun e => {| word := fst e; count := snd e |})
        (filter (fun e => snd e =? c) m).
Proof.
  intros m c. unfold getTopWords.
  rewrite Array_slice_prefix by (unfold Map_size; lia).
  rewrite firstn_all2 by (rewrite Array_sort_length; unfold Map_size; lia).
  assert (Hmap : forall l : list (jsstring * Z),
             filter (fun t => count t =? c)
               (map (fun e => {| word := fst e; count := snd e |}) l)
             = map (fun e => {| word := fst e; count := snd e |})
                 (filter (fun e => snd e =? c) l)).
  { induction l as [|e l IH]; simpl; [reflexivity|].
    rewrite IH. now destruct (snd e =? c). }
  rewrite Hmap. f_equal.
  induction m as [|x m IH]; simpl; [reflexivity|].
  rewrite sort_insert_class. simpl. now rewrite IH.
Qed.

(** ** The messages of a worker *)

Lemma progress_messages workerId filePath events :
  flat_map
    (fun ev => match ev with
               | OnProgress _ => [ProgressMessage workerId filePath]
               | _ => []
               end) events
  = repeat (ProgressMessage workerId filePath) (length (progressLines events)).
Proof.
  unfold progressLines.
  induction events as [|ev events IH]; simpl; [reflexivity|].
  destruct ev; simpl; now rewrite IH.
Qed.

(** X14: A worker posts one progress message at its start and one after each
    50000 lines, then exactly one complete message, the last of all; the
    complete message carries the id and the path of the worker, and reports
    success exactly when the path names a file that is read to its end. *)
Theorem processFile_protocol :
  forall (env : Env) (filePath : jsstring) (workerId : Z),
    exists (k : nat) (c : Complete),
      processFile env filePath workerId
      = repeat (ProgressMessage workerId filePath) (S k) ++ [CompleteMessage c]
      /\ c_workerId c = workerId
      /\ c_filePath c = filePath
      /\ Z.of_nat k = match fs env filePath with
                      | Regular lines _ => Z.of_nat (length lines) / 50000
                      | _ => 0
                      end
      /\ match fs env filePath, c_outcome c with
         | Regular _ None, inr _ => True
         | Regular _ None, inl _ => False
         | _, inr _ => False
         | _, inl _ => True
         end.
Proof.
  intros env filePath workerId.
  pose proof (progress_of_scan env filePath
                {| onProgress := true; progressInterval := Some 50000 |}) as Hp.
  unfold processFile. unfold countWords in *.
  destruct (fs env filePath) as [| |lines [e|]]; cbn [fst snd] in Hp.
  - exists 0%nat. eexists. split; [reflexivity|]. repeat split.
  - exists 0%nat. eexists. split; [reflexivity|]. repeat split.
  - cbv beta iota. rewrite progress_messages, Hp.
    eexists. eexists. split; [reflexivity|]. repeat split.
    apply (multiples_count 50000).
  - cbv beta iota. rewrite progress_messages, Hp.
    eexists. eexists. split; [reflexivity|]. repeat split.
    apply (multiples_count 50000).
Qed.

(** ** What the concurrency settings cannot change *)

Lemma recordFile_withCpus env n files : forall r,
  fold_left (recordFile (withCpus env n)) files r
  = fold_left (recordFile env) files r.
Proof.
  induction files as [|f files IH]; intro r; simpl; [reflexivity|].
  rewrite IH. reflexivity.
Qed.

(** X10: The results of a run (lists, combined map, totals) are the same for
    every [maxWorkers] that is an integer or left out and for every number of
    processors: among these settings the choice decides the batches and
    nothing else. *)
Theorem results_ignore_concurrency :
  forall (env : Env) (files : list jsstring) (maxWorkers maxWorkers' : option Z)
         (processors : Z),
    option_map results (processFilesInParallel env (Some files) maxWorkers)
    = option_map results
        (processFilesInParallel (withCpus env processors) (Some files) maxWorkers').
Proof.
  intros env files M M' n.
  destruct (processFilesInParallel_runs env files M) as [bs [Hrun _]].
  destruct (processFilesInParallel_runs (withCpus env n) files M')
    as [bs' [Hrun' _]].
  rewrite Hrun, Hrun'. simpl. now rewrite recordFile_withCpus.
Qed.

(** ** Sequential processing *)

Lemma sequential_fold env quiet files : forall r,
  let r' := fold_left (sequentialStep env quiet) files r in
  sm_successful r' + sm_failed r'
  = sm_successful r + sm_failed r + Z.of_nat (length files)
  /\ sm_failed r' = sm_failed r + Z.of_nat (length (flat_map (sequentialError env) files))
  /\ sm_errors r' = sm_errors r ++ flat_map (sequentialError env) files.
Proof.
  induction files as [|f files IH]; intro r; cbn zeta.
  - simpl. rewrite app_nil_r. repeat split; lia.
  - cbn [fold_left flat_map length].
    destruct (IH (sequentialStep env quiet r f)) as (Hsum & Hfail & Herr).
    cbn zeta in Hsum, Hfail, Herr. rewrite Hfail, Herr, length_app.
    assert (Hstep : sm_successful (sequentialStep env quiet r f)
                    + sm_failed (sequentialStep env quiet r f)
                    = sm_successful r + sm_failed r + 1
                    /\ sm_failed (sequentialStep env quiet r f)
                       = sm_failed r + Z.of_nat (length (sequentialError env f))
                    /\ sm_errors (sequentialStep env quiet r f)
                       = sm_errors r ++ sequentialError env f).
    { unfold sequentialStep, sequentialError, processSingleFile.
      rewrite (scan_result_options env f
                 {| onProgress := negb quiet; progressInterval := Some 10000 |}
                 {| onProgress := negb true; progressInterval := Some 10000 |}).
      destruct (snd (countWords env f _)); simpl; rewrite ?app_nil_r;
        repeat split; lia. }
    destruct Hstep as (Hs1 & Hf1 & He1).
    rewrite He1, <- app_assoc. repeat split; lia.
Qed.

Lemma failure_is_sequentialError env f :
  workerFault env f = None ->
  map (fun k => (ko_filePath k, e_message (ko_error k))) (failureOf env f)
  = sequentialError env f.
Proof.
  intro H. unfold failureOf, outcomeOf, sequentialError, processSingleFile.
  rewrite H.
  rewrite (scan_result_options env f
             {| onProgress := true; progressInterval := Some 50000 |}
             {| onProgress := negb true; progressInterval := Some 10000 |}).
  now destruct (snd (countWords env f _)).
Qed.

(** X15: Sequential processing goes through every file, whatever fails: each
    file is counted as successful or failed, and the errors kept are those of
    the failing files, in order.  Without a fault in a worker, it fails on the
    same files as a parallel run, with the same messages. *)
Theorem sequential_matches_parallel :
  forall (env : Env) (files : list jsstring) (quiet : bool)
         (maxWorkers : option Z),
    (forall f, workerFault env f = None) ->
    let summary := processFilesSequentially env files quiet in
    exists run,
      processFilesInParallel env (Some files) maxWorkers = Some run
      /\ sm_successful summary + sm_failed summary = Z.of_nat (length files)
      /\ sm_failed summary = Z.of_nat (length (sm_errors summary))
      /\ sm_successful summary = Z.of_nat (length (successful (results run)))
      /\ sm_errors summary
         = map (fun k => (ko_filePath k, e_message (ko_error k)))
             (failed (results run)).
Proof.
  intros env files quiet maxWorkers Hfault summary.
  destruct (processFilesInParallel_runs env files maxWorkers) as [bs [Hrun _]].
  destruct (recordFile_fold env files emptyResults) as (Hs & Hf & _).
  destruct (sequential_fold env quiet files
              {| sm_successful := 0; sm_failed := 0; sm_errors := [] |})
    as (Hsum & Hfail & Herr).
  cbn zeta in Hsum, Hfail, Herr. fold (processFilesSequentially env files quiet) in *.
  fold summary in Hsum, Hfail, Herr. simpl in Hsum, Hfail, Herr.
  assert (Hsame : map (fun k => (ko_filePath k, e_message (ko_error k)))
                    (flat_map (failureOf env) files)
                  = flat_map (sequentialError env) files).
  { clear -Hfault. induction files as [|f files IH]; [reflexivity|].
    cbn [flat_map]. now rewrite map_app, IH, failure_is_sequentialError. }
  eexists. split; [exact Hrun|]. simpl. rewrite Hs, Hf. simpl.
  rewrite Hsame, Herr. repeat split; try lia.
  pose proof (flat_map_lengths env files) as Hlen.
  apply (f_equal (@length _)) in Hsame. rewrite length_map in Hsame. lia.
Qed.

(** The two files of the example host and a path that does not exist. *)
Lemma sequential_matches_parallel_witness :
  exists run,
    processFilesInParallel twoFilesEnv
      (Some [lit "a.txt"%string; lit "b.txt"%string; lit "c.txt"%string]) None
    = Some run
    /\ sm_successful
         (processFilesSequentially twoFilesEnv
            [lit "a.txt"%string; lit "b.txt"%string; lit "c.txt"%string] false)
       = Z.of_nat (length (successful (results run))).
Proof.
  destruct (@sequential_matches_parallel twoFilesEnv
              [lit "a.txt"%string; lit "b.txt"%string; lit "c.txt"%string]
              false None (fun _ => eq_refl))
    as [run (Hrun & _ & _ & Hok & _)].
  exists run. split; [exact Hrun | exact Hok].
Defined.

(** ** The command line *)

Lemma parseArg_cases (r : Args) (a : jsstring) :
  a_files (parseArg r a)
  = a_files r ++ (if startsWithDash a then [] else [a])
  /\ a_help (parseArg r a) = a_help r || isHelpArg a
  /\ a_parallel (parseArg r a) = a_parallel r || isParallelArg a
  /\ a_quiet (parseArg r a) = a_quiet r || isQuietArg a
  /\ a_workers (parseArg r a)
     = if isWorkersArg a then Some (workersValue a) else a_workers r.
Proof.
  unfold parseArg, isHelpArg, isParallelArg, isQuietArg, isWorkersArg,
    startsWithDash, workersValue.
  destruct (str_eqb a (lit "--help"%string)) eqn:E1;
    [apply str_eqb_eq in E1; subst a; simpl;
     rewrite ?app_nil_r, ?orb_true_r, ?orb_false_r; repeat split|].
  destruct (str_eqb a (lit "-h"%string)) eqn:E2;
    [apply str_eqb_eq in E2; subst a; simpl;
     rewrite ?app_nil_r, ?orb_true_r, ?orb_false_r; repeat split|].
  destruct (str_eqb a (lit "--parallel"%string)) eqn:E3;
    [apply str_eqb_eq in E3; subst a; simpl;
     rewrite ?app_nil_r, ?orb_true_r, ?orb_false_r; repeat split|].
  destruct (str_eqb a (lit "-p"%string)) eqn:E4;
    [apply str_eqb_eq in E4; subst a; simpl;
     rewrite ?app_nil_r, ?orb_true_r, ?orb_false_r; repeat split|].
  destruct (str_eqb a (lit "--quiet"%string)) eqn:E5;
    [apply str_eqb_eq in E5; subst a; simpl;
     rewrite ?app_nil_r, ?orb_true_r, ?orb_false_r; repeat split|].
  destruct (str_eqb a (lit "-q"%string)) eqn:E6;
    [apply str_eqb_eq in E6; subst a; simpl;
     rewrite ?app_nil_r, ?orb_true_r, ?orb_false_r; repeat split|].
  cbn [orb].
  destruct (String_startsWith a (lit "--workers="%string)) eqn:E7.
  - assert (Hd : String_startsWith a (lit "-"%string) = true).
    { destruct a as [|c a]; [discriminate|]. simpl in E7 |- *.
      apply andb_true_iff in E7 as [-> _]. now destruct a. }
    rewrite Hd. simpl. rewrite ?app_nil_r, ?orb_false_r. repeat split.
  - destruct (String_startsWith a (lit "-"%string)); simpl;
      rewrite ?app_nil_r, ?orb_false_r; repeat split.
Qed.

Lemma parseArgs_snoc (args : list jsstring) (a : jsstring) :
  parseArgs (args ++ [a]) = parseArg (parseArgs args) a.
Proof. unfold parseArgs. now rewrite fold_left_app. Qed.

(** X16: What [parseArgs] returns: the files are the arguments that do not start
    with a dash, in order (no argument with a dash is ever taken for a file,
    and an unknown option is dropped); each flag is set exactly when one of its
    two spellings occurs; [workers] comes from the last [--workers=] argument
    and is [null] without one. *)
Theorem parseArgs_reads_arguments :
  forall args : list jsstring,
    a_files (parseArgs args) = filter (fun a => negb (startsWithDash a)) args
    /\ a_help (parseArgs args) = existsb isHelpArg args
    /\ a_parallel (parseArgs args) = existsb isParallelArg args
    /\ a_quiet (parseArgs args) = existsb isQuietArg args
    /\ a_workers (parseArgs args)
       = option_map workersValue (find isWorkersArg (rev args)).
Proof.
  induction args as [|a args IH] using rev_ind.
  - repeat split.
  - destruct IH as (Hf & Hh & Hp & Hq & Hw).
    destruct (parseArg_cases (parseArgs args) a) as (Hf1 & Hh1 & Hp1 & Hq1 & Hw1).
    rewrite parseArgs_snoc, Hf1, Hh1, Hp1, Hq1, Hw1, Hf, Hh, Hp, Hq, Hw.
    rewrite filter_app, !existsb_app, rev_app_distr. simpl.
    rewrite !orb_false_r.
    repeat split; destruct (startsWithDash a), (isWorkersArg a); reflexivity.
Qed.

Lemma startsWith_app (p s : jsstring) : String_startsWith (p ++ s) p = true.
Proof.
  induction p as [|c p IH]; simpl.
  - now destruct s.
  - now rewrite N.eqb_refl, IH.
Qed.

Lemma String_split_no_sep (sep : codeunit) (s : jsstring) : forall piece,
  forallb (fun c => negb (c =? sep)%N) s = true ->
  String_split sep s piece = [rev piece ++ s].
Proof.
  induction s as [|c s IH]; intros piece H; simpl.
  - now rewrite app_nil_r.
  - simpl in H. apply andb_true_iff in H as [Hc Hs].
    apply negb_true_iff in Hc. rewrite Hc, (IH _ Hs). simpl.
    now rewrite <- app_assoc.
Qed.

Lemma String_split_at_sep (sep : codeunit) (a b : jsstring) : forall piece,
  forallb (fun c => negb (c =? sep)%N) a = true ->
  String_split sep (a ++ sep :: b) piece
  = (rev piece ++ a) :: String_split sep b [].
Proof.
  induction a as [|c a IH]; intros piece H; simpl.
  - now rewrite N.eqb_refl, app_nil_r.
  - simpl in H. apply andb_true_iff in H as [Hc Ha].
    apply negb_true_iff in Hc. rewrite Hc, (IH _ Ha). simpl.
    now rewrite <- app_assoc.
Qed.

Lemma digit_is_plain (c : codeunit) :
  isDigit c = true ->
  whiteSpace c = false /\ (c =? 45)%N = false /\ (c =? 43)%N = false
  /\ (c =? 61)%N = false.
Proof.
  intro H.
  assert (Hc : (c < 256)%N).
  { unfold isDigit, between in H. apply andb_true_iff in H as [_ H].
    apply N.leb_le in H. lia. }
  assert (F : implb (isDigit c)
                (negb (whiteSpace c) && negb (c =? 45)%N && negb (c =? 43)%N
                 && negb (c =? 61)%N) = true).
  { apply (latin1_cases
             (fun c => implb (isDigit c)
                         (negb (whiteSpace c) && negb (c =? 45)%N
                          && negb (c =? 43)%N && negb (c =? 61)%N)));
      [vm_compute; reflexivity | exact Hc]. }
  rewrite H in F. simpl in F.
  destruct (whiteSpace c), (c =? 45)%N, (c =? 43)%N, (c =? 61)%N;
    try discriminate F; auto.
Qed.

Lemma takeWhile_all {A} (p : A -> bool) (l : list A) :
  forallb p l = true -> takeWhile p l = l.
Proof.
  induction l as [|x l IH]; simpl; [reflexivity|].
  intro H. apply andb_true_iff in H as [Hx Hl]. now rewrite Hx, IH.
Qed.

(** X17: A [--workers=] argument followed by decimal digits that write an
    integer up to [2^53] sets [workers] to that integer. *)
Theorem parseArgs_workers_number :
  forall digits : jsstring,
    digits <> [] ->
    forallb isDigit digits = true ->
    decimalValue digits <= 9007199254740992 ->
    a_workers (parseArgs [lit "--workers="%string ++ digits])
    = Some (Num (decimalValue digits)).
Proof.
  intros ds Hne Hds Hexact.
  destruct (parseArg_cases
              {| a_files := []; a_parallel := false; a_workers := None;
                 a_help := false; a_quiet := false |}
              (lit "--workers="%string ++ ds)) as (_ & _ & _ & _ & Hw).
  unfold parseArgs. cbn [fold_left]. rewrite Hw.
  unfold isWorkersArg. rewrite startsWith_app. f_equal.
  unfold workersValue.
  change (lit "--workers="%string ++ ds)
    with (lit "--workers"%string ++ 61%N :: ds).
  rewrite String_split_at_sep by reflexivity.
  rewrite String_split_no_sep.
  - simpl nth_error. unfold parseInt10.
    destruct ds as [|d ds]; [congruence|].
    simpl in Hds. apply andb_true_iff in Hds as [Hd Hrest].
    destruct (digit_is_plain d Hd) as (Hw' & Hminus & Hplus & _).
    cbn [dropWhile]. rewrite Hw', Hminus, Hplus.
    cbn [takeWhile]. rewrite Hd, (takeWhile_all _ _ Hrest). cbv zeta iota.
    apply Z.leb_le in Hexact. now rewrite Hexact.
  - rewrite forallb_forall in *. intros c Hc.
    destruct (digit_is_plain c (Hds c Hc)) as (_ & _ & _ & He). now rewrite He.
Qed.

(** [--workers=4]. *)
Lemma parseArgs_workers_number_witness :
  a_workers (parseArgs [lit "--workers="%string ++ lit "4"%string])
  = Some (Num (decimalValue (lit "4"%string))).
Proof.
  apply parseArgs_workers_number;
    [discriminate | reflexivity | vm_compute; discriminate].
Defined.

(** ** [expandFiles] *)

Lemma existsb_str_In (x : jsstring) (l : list jsstring) :
  existsb (str_eqb x) l = true <-> In x l.
Proof.
  rewrite existsb_exists. split.
  - intros [y [Hy He]]. apply str_eqb_eq in He. now subst y.
  - intro H. exists x. split; [exact H | apply str_eqb_refl].
Qed.

Lemma Set_from_fold (l : list jsstring) : forall seen,
  NoDup seen ->
  let r := fold_left
             (fun seen x => if existsb (str_eqb x) seen then seen else seen ++ [x])
             l seen in
  NoDup r /\ (forall x, In x r <-> In x seen \/ In x l).
Proof.
  induction l as [|y l IH]; intros seen Hnd; cbn zeta.
  - simpl. split; [exact Hnd | tauto].
  - cbn [fold_left]. destruct (existsb (str_eqb y) seen) eqn:E.
    + apply existsb_str_In in E.
      destruct (IH seen Hnd) as [Hn Hin]. split; [exact Hn|].
      intro x. rewrite Hin. simpl. intuition (subst; auto).
    + assert (Hy : ~ In y seen).
      { intro Hin. apply existsb_str_In in Hin. congruence. }
      assert (Hnd' : NoDup (seen ++ [y])).
      { apply NoDup_app; [exact Hnd | repeat constructor; simpl; tauto |].
        intros x Hx [<- | []]. tauto. }
      destruct (IH (seen ++ [y]) Hnd') as [Hn Hin]. split; [exact Hn|].
      intro x. rewrite Hin, in_app_iff. simpl. tauto.
Qed.

Lemma expand_fold env paths patterns : forall files,
  fold_left (expandPattern env paths) patterns files
  = files ++ flat_map (expansionOf env paths) patterns.
Proof.
  induction patterns as [|p patterns IH]; intro files; simpl.
  - now rewrite app_nil_r.
  - rewrite IH. unfold expandPattern, expansionOf.
    destruct (fs env p); [| |destruct (isFile paths p)];
      now rewrite <- ?app_assoc, ?app_nil_r.
Qed.

Lemma expandFiles_spec env paths patterns :
  NoDup (expandFiles env paths patterns)
  /\ forall x, In x (expandFiles env paths patterns)
               <-> In x (flat_map (expansionOf env paths) patterns).
Proof.
  unfold expandFiles, Set_from. rewrite expand_fold. simpl.
  destruct (Set_from_fold (flat_map (expansionOf env paths) patterns)
              (NoDup_nil _)) as [Hn Hin].
  split; [exact Hn|]. intro x. rewrite Hin. simpl. tauto.
Qed.

(** X18: [expandFiles] returns no path twice, and returns exactly: the resolved
    path of each pattern that names a regular file ([stats.isFile()]), and
    for each pattern that names a directory the resolved paths of its entries
    whose name ends in [.txt]; a pattern that names nothing, or something that
    is neither a regular file nor a directory, contributes nothing. *)
Theorem expandFiles_distinct_existing :
  forall (env : Env) (paths : Paths) (patterns : list jsstring),
    NoDup (expandFiles env paths patterns)
    /\ forall x,
        In x (expandFiles env paths patterns)
        <-> exists pattern,
            In pattern patterns
            /\ match fs env pattern with
               | Missing => False
               | Regular _ _ =>
                   isFile paths pattern = true /\ x = resolve paths [pattern]
               | Directory =>
                   exists f,
                     In f (readdirSync paths pattern)
                     /\ String_endsWith f (lit ".txt"%string) = true
                     /\ x = resolve paths [pattern; f]
               end.
Proof.
  intros env paths patterns.
  destruct (expandFiles_spec env paths patterns) as [Hn Hin].
  split; [exact Hn|]. intro x. rewrite Hin, in_flat_map.
  split; intros [p [Hp Hx]]; exists p; (split; [exact Hp|]);
    unfold expansionOf in *; destruct (fs env p).
  - destruct Hx.
  - apply in_map_iff in Hx as [f [Hf Hin']]. apply filter_In in Hin' as [H1 H2].
    exists f. auto.
  - destruct (isFile paths p); [|destruct Hx].
    destruct Hx as [Hx | []]. now subst x.
  - destruct Hx.
  - destruct Hx as [f (H1 & H2 & ->)]. apply in_map_iff. exists f.
    split; [reflexivity|]. apply filter_In. auto.
  - destruct Hx as [-> ->]. now left.
Qed.

(** ** [main] *)

(** X19: What [main] decides, from the parsed arguments and the expanded files:
    a help flag always ends it with exit code 0, before any file is
    looked at; without a usable file it ends with exit code 1; worker
    threads are used only with the parallel flag and at least two files, so a
    single file is processed alone even with the flag; the files handed over
    are those of [expandFiles], which are distinct. *)
Theorem main_dispatch :
  forall (env : Env) (paths : Paths) (argv : list jsstring),
    let args := parseArgs (skipn 2 argv) in
    let files := expandFiles env paths (a_files args) in
    match main env paths argv with
    | Exit exitCode =>
        (a_help args = true /\ exitCode = 0)
        \/ (a_help args = false /\ files = [] /\ exitCode = 1)
    | RunParallel fs maxWorkers verbose =>
        a_help args = false /\ a_parallel args = true
        /\ fs = files /\ (2 <= length fs)%nat /\ NoDup fs
        /\ maxWorkers = a_workers args /\ verbose = negb (a_quiet args)
    | RunSingle file quiet =>
        a_help args = false /\ files = [file] /\ quiet = a_quiet args
    | RunSequential fs quiet =>
        a_help args = false /\ a_parallel args = false
        /\ fs = files /\ (2 <= length fs)%nat /\ NoDup fs
        /\ quiet = a_quiet args
    end.
Proof.
  intros env paths argv args files. unfold main. fold args.
  destruct (a_help args) eqn:Hh; simpl orb; cbv iota; [left; auto|].
  destruct (Z.eqb_spec (Z.of_nat (length (a_files args))) 0) as [Hnone | Hsome].
  { right. repeat split. unfold files.
    destruct (a_files args); [reflexivity | simpl in Hnone; lia]. }
  fold files.
  destruct (expandFiles_spec env paths (a_files args)) as [Hnd _].
  fold files in Hnd.
  destruct files as [|f [|g rest]] eqn:Hfiles.
  - simpl. right. auto.
  - simpl. rewrite andb_false_r. auto.
  - change (Z.of_nat (length (f :: g :: rest)) =? 0) with false. cbv iota.
    assert (Hlen : (1 <? Z.of_nat (length (f :: g :: rest))) = true)
      by (apply Z.ltb_lt; simpl length; lia).
    rewrite Hlen, andb_true_r.
    destruct (a_parallel args); repeat split; auto; simpl; lia.
Qed.

(** ** More on [normalizeLine] *)

Lemma normalizeLine_tokens line :
  Forall (fun t => t <> [] /\ Forall (fun c => tokenUnit c = true) t)
    (normalizeLine line).
Proof.
  rewrite normalizeLine_fields. apply fields_tokens; [constructor|].
  intros c Hin Hw. apply in_map_iff in Hin as [x [Hx Hin]].
  destruct (punctuation x) eqn:Hp.
  - subst c. discriminate.
  - subst c. apply kept_lower_is_tokenUnit; auto.
    now apply (toLowerCase_lower line).
Qed.

Lemma tokenUnit_plain (c : codeunit) :
  tokenUnit c = true ->
  lowerUnit c = [c] /\ punctuation c = false /\ whiteSpace c = false.
Proof.
  intro H. destruct (N.lt_ge_cases c 256) as [Hlow | Hhigh].
  - assert (F : implb (tokenUnit c)
                  (str_eqb (lowerUnit c) [c] && negb (punctuation c)
                   && negb (whiteSpace c)) = true).
    { apply (latin1_cases
               (fun c => implb (tokenUnit c)
                           (str_eqb (lowerUnit c) [c] && negb (punctuation c)
                            && negb (whiteSpace c))));
        [vm_compute; reflexivity | exact Hlow]. }
    rewrite H in F. simpl in F.
    apply andb_true_iff in F as [F Hw]. apply andb_true_iff in F as [Hl Hp].
    apply str_eqb_eq in Hl. apply negb_true_iff in Hp, Hw. auto.
  - exfalso. unfold tokenUnit in H.
    rewrite between_above, digitOrUnderscore_above, accented_above in H
      by (assumption || lia).
    discriminate.
Qed.

Lemma fields_no_sep (sep : codeunit -> bool) (s : jsstring) : forall cur,
  Forall (fun c => sep c = false) s ->
  fields sep s cur = match rev cur ++ s with [] => [] | t => [t] end.
Proof.
  induction s as [|c s IH]; intros cur H; simpl.
  - rewrite app_nil_r. destruct cur as [|x cur]; [reflexivity|].
    simpl. now destruct (rev cur ++ [x]) eqn:E; [apply app_eq_nil in E as [_ E]|].
  - inversion H as [|? ? Hc Hs]; subst. rewrite Hc, (IH _ Hs). simpl.
    now rewrite <- app_assoc.
Qed.

Lemma token_is_fixed (t : jsstring) :
  t <> [] -> Forall (fun c => tokenUnit c = true) t -> normalizeLine t = [t].
Proof.
  intros Hne Ht. rewrite normalizeLine_fields.
  assert (Hlow : toLowerCase t = t).
  { unfold toLowerCase. induction Ht as [|c t Hc _ IH]; [reflexivity|].
    simpl. destruct (tokenUnit_plain c Hc) as (-> & _). simpl. f_equal.
    destruct t; [reflexivity | apply IH; discriminate]. }
  rewrite Hlow.
  assert (Hmap : map (fun c => if punctuation c then 32%N else c) t = t).
  { clear Hne Hlow. induction Ht as [|c t Hc _ IH]; [reflexivity|].
    simpl. destruct (tokenUnit_plain c Hc) as (_ & -> & _). now rewrite IH. }
  rewrite Hmap, fields_no_sep.
  - simpl. destruct t; [congruence | reflexivity].
  - eapply Forall_impl; [|exact Ht]. intros c Hc. now apply tokenUnit_plain.
Qed.

Lemma fields_app_sep (sep : codeunit -> bool) (c : codeunit) (s2 : jsstring)
    (s1 : jsstring) : forall cur,
  sep c = true ->
  fields sep (s1 ++ c :: s2) cur = fields sep s1 cur ++ fields sep s2 [].
Proof.
  induction s1 as [|x s1 IH]; intros cur Hc; simpl.
  - rewrite Hc. now destruct cur.
  - destruct (sep x); [destruct cur|]; simpl; now rewrite IH.
Qed.

(** X20: Normalizing is idempotent and splits at spaces: every token of a line
    normalizes to itself, so normalizing the tokens again changes nothing, and
    the tokens of two texts joined by a space are the tokens of the first
    followed by those of the second. *)
Theorem normalizeLine_idempotent_and_splits :
  forall a b : jsstring,
    flat_map normalizeLine (normalizeLine a) = normalizeLine a
    /\ normalizeLine (a ++ 32%N :: b) = normalizeLine a ++ normalizeLine b.
Proof.
  intros a b. split.
  - pose proof (normalizeLine_tokens a) as H.
    induction H as [|t ts [Hne Ht] _ IH]; [reflexivity|].
    simpl. now rewrite (token_is_fixed Hne Ht), IH.
  - rewrite !normalizeLine_fields. unfold toLowerCase.
    rewrite flat_map_app, map_app. cbn [flat_map map app].
    change (lowerUnit 32%N) with [32%N]. cbn [app map].
    change (punctuation 32%N) with false. cbv iota.
    now rewrite fields_app_sep by reflexivity.
Qed.

(** ** A [maxWorkers] that is not a number *)

Lemma batchLoopNaN_integer env files (e : Z) fuel : forall (i : Z) st,
  batchLoopNaN env files (Some e) fuel (Some i) st
  = batchLoop env files e fuel i st.
Proof.
  induction fuel as [|fuel IH]; intros i st; simpl.
  - reflexivity.
  - destruct (i <? Z.of_nat (length files)); [|reflexivity].
    destruct (runBatch env i (Array_slice i (i + e) files) st); [|reflexivity].
    apply IH.
Qed.

(** X21: With a [maxWorkers] that is [NaN], which is what [parseArgs] yields for
    [--workers=] followed by something that is not a number, a run on a list
    that is not empty goes once through the loop with an empty batch: it
    creates no worker, records no file and returns the empty results.  With
    an integer or without the option, this wider reading of the function is
    the one used above. *)
Theorem nan_maxWorkers_processes_nothing :
  (forall (env : Env) (file : jsstring) (files : list jsstring),
      processFilesInParallelNaN env (Some (file :: files)) (Some None)
      = Some {| results := emptyResults; launched := [[]] |})
  /\ (forall (env : Env) (files : option (list jsstring)) (m : Z),
         processFilesInParallelNaN env files (Some (Some m))
         = processFilesInParallel env files (Some m))
  /\ (forall (env : Env) (files : option (list jsstring)),
         processFilesInParallelNaN env files None
         = processFilesInParallel env files None)
  /\ a_workers (parseArgs [lit "--workers=abc"%string]) = Some NaN.
Proof.
  split; [|split; [|split]].
  - intros env file files. unfold processFilesInParallelNaN.
    cbn [Math_min Math_max length batchLoopNaN].
    assert (Hlt : (0 <? Z.of_nat (S (length files))) = true)
      by (apply Z.ltb_lt; lia).
    rewrite Hlt. cbn [Number_add toInteger].
    rewrite Array_slice_prefix by lia. cbn [Z.to_nat firstn].
    rewrite runBatch_records. cbn [fold_left workerIds results launched app].
    destruct files; reflexivity.
  - intros env [[|f files]|] m; try reflexivity.
    unfold processFilesInParallelNaN, processFilesInParallel.
    cbn [Math_min Math_max]. now rewrite batchLoopNaN_integer.
  - intros env [[|f files]|]; try reflexivity.
    unfold processFilesInParallelNaN, processFilesInParallel.
    cbn [Math_min Math_max]. now rewrite batchLoopNaN_integer.
  - reflexivity.
Qed.
